(** * capa: rule-generator editor (view.py) and duplicate-feature detection

    A shallow embedding of

    - [capa/ida/plugin/view.py]: [calc_level_by_indent],
      [parse_feature_for_node], [parse_node_for_feature], [yaml_to_nodes],
      [iterate_tree], [calc_item_depth], and the methods [update_preview],
      [load_features_from_yaml] (with its local procedures [add_node] and
      [build]), [update_features] and [new_expression_node],
      [new_feature_node], [new_comment_node] of [CapaExplorerRulgenEditor];
    - [scripts/detect_duplicate_features.py]: [get_child_features],
      [get_features] and [find_overlapping_rules].

    Python strings are modelled as [string], one [ascii] per code point
    (code points below 256).  Qt's [QTreeWidgetItem] objects live in a heap
    indexed by object identity; Python exceptions are an explicit outcome. *)

From stdpp Require Import base list option strings pretty.
From Stdlib Require Import ZArith NArith Ascii String Lia.

Open Scope string_scope.

(** ** Python [str] methods used by the two source files *)

Module PyStr.

(** [str.isspace] on one code point below 256: TAB..CR, FS..US, SPACE,
    NEL and NBSP.  This is also the class of [\s] in a [str] pattern. *)
Definition isspace (c : ascii) : bool :=
  let n := N_of_ascii c in
  ((9 <=? n) && (n <=? 13) || (28 <=? n) && (n <=? 32)
   || (n =? 133) || (n =? 160))%N.

(** Line boundaries of [str.splitlines]: LF, VT, FF, CR, FS, GS, RS, NEL
    (CR LF counts as one boundary). *)
Definition is_linebreak (c : ascii) : bool :=
  let n := N_of_ascii c in
  ((10 <=? n) && (n <=? 13) || (28 <=? n) && (n <=? 30) || (n =? 133))%N.

Definition LF : ascii := ascii_of_N 10.
Definition CR : ascii := ascii_of_N 13.
Definition nl : string := String LF "".

(** [len(s) == 0]; Python's truthiness of a string is its negation. *)
Definition is_empty (s : string) : bool :=
  match s with "" => true | String _ _ => false end.

(** [s.lstrip(chars)] for a predicate on characters. *)
Fixpoint lstrip_by (p : ascii -> bool) (s : string) : string :=
  match s with
  | "" => ""
  | String c s' => if p c then lstrip_by p s' else s
  end.

Fixpoint mem_char (c : ascii) (chars : string) : bool :=
  match chars with
  | "" => false
  | String d chars' => Ascii.eqb c d || mem_char c chars'
  end.

(** [s.lstrip()], [s.rstrip()], [s.strip()]. *)
Definition lstrip (s : string) : string := lstrip_by isspace s.
Definition rstrip (s : string) : string := String.rev (lstrip (String.rev s)).
Definition strip (s : string) : string := rstrip (lstrip s).

(** [s.lstrip(chars)]: [chars] is a SET of characters, not a prefix. *)
Definition lstrip_chars (chars s : string) : string :=
  lstrip_by (fun c => mem_char c chars) s.

(** [s.startswith(p)] and [s.startswith((p1, ..., pn))]. *)
Definition startswith (s p : string) : bool := String.prefix p s.
Definition startswith_any (s : string) (ps : list string) : bool :=
  existsb (startswith s) ps.

(** [s.endswith(p)]: [p] is [s] or the end of its tail. *)
Fixpoint endswith (s p : string) : bool :=
  String.eqb s p
  || match s with
     | "" => false
     | String _ s' => endswith s' p
     end.

(** [s.find(sub)], with [None] for Python's [-1]. *)
Definition find (s sub : string) : option nat := String.index 0 sub s.

(** Slices [s[k:]] and [s[:k]] for [k >= 0]. *)
Fixpoint slice_from (k : nat) (s : string) : string :=
  match k, s with
  | 0, _ => s
  | S _, "" => ""
  | S k', String _ s' => slice_from k' s'
  end.
Definition slice_to (k : nat) (s : string) : string := substring 0 k s.

(** [s.partition(sep)] for a non-empty [sep]. *)
Definition partition (s sep : string) : string * string * string :=
  match find s sep with
  | Some i => (slice_to i s, sep, slice_from (i + String.length sep) s)
  | None => (s, "", "")
  end.

(** [" " * n]. *)
Fixpoint spaces (n : nat) : string :=
  match n with
  | 0 => ""
  | S n' => String " " (spaces n')
  end.

(** [s.splitlines()]: [cur] is the line read so far. *)
Fixpoint splitlines_from (cur s : string) : list string :=
  match s with
  | "" => if is_empty cur then [] else [cur]
  | String c s' =>
      if is_linebreak c then
        cur :: match s' with
               | String d s'' =>
                   if Ascii.eqb c CR && Ascii.eqb d LF
                   then splitlines_from "" s''
                   else splitlines_from "" s'
               | "" => []
               end
      else splitlines_from (cur ++ String c "") s'
  end.
Definition splitlines (s : string) : list string := splitlines_from "" s.

(** ["\n".join(l)]. *)
Definition join_lines (l : list string) : string :=
  match l with
  | [] => ""
  | x :: l' => fold_left (fun acc y => acc ++ nl ++ y) l' x
  end.

(** *** Auxiliary notions used to state properties of the above *)

(** Every character of [s] satisfies [p]. *)
Fixpoint all_chars (p : ascii -> bool) (s : string) : bool :=
  match s with
  | "" => true
  | String c s' => p c && all_chars p s'
  end.

(** [s] without its trailing characters that satisfy [p], read from the
    front. *)
Fixpoint rstrip_by (p : ascii -> bool) (s : string) : string :=
  match s with
  | "" => ""
  | String c s' =>
      let r := rstrip_by p s' in
      if is_empty r && p c then "" else String c r
  end.

(** [s] has no surrounding whitespace. *)
Definition stripped (s : string) : Prop := strip s = s.

End PyStr.

(** ** The fragment of [re] used by view.py

    Both patterns of the source are sequences of literal characters, greedy
    repetitions ([+], [*]) of a one-character class, and capturing groups
    that are not nested.  The matcher is the usual backtracking one: a greedy
    repetition takes as many characters as it can and gives them back one at
    a time while the rest of the pattern fails. *)

Module Re.

Inductive regex :=
| Eps
| Lit (c : ascii)
| Plus (cls : ascii -> bool)
| Star (cls : ascii -> bool)
| Group (r : regex)
| Seq (r1 r2 : regex).

(** [.] (no [re.DOTALL]), [\s] and [[a-zA-Z]]. *)
Definition dot (c : ascii) : bool := negb (Ascii.eqb c PyStr.LF).
Definition ws (c : ascii) : bool := PyStr.isspace c.
Definition alpha (c : ascii) : bool :=
  let n := N_of_ascii c in
  ((97 <=? n) && (n <=? 122) || (65 <=? n) && (n <=? 90))%N.

Fixpoint lits (s : string) : regex :=
  match s with
  | "" => Eps
  | String c s' => Seq (Lit c) (lits s')
  end.

Fixpoint seqs (rs : list regex) : regex :=
  match rs with
  | [] => Eps
  | r :: rs' => Seq r (seqs rs')
  end.

Section Matcher.
Context {R : Type}.

Fixpoint star (cls : ascii -> bool) (s : string)
    (k : string -> option R) : option R :=
  match s with
  | "" => k ""
  | String c s' =>
      if cls c then
        match star cls s' k with
        | Some r => Some r
        | None => k s
        end
      else k s
  end.
End Matcher.

(** [caps] are the groups closed so far, in order. *)
Fixpoint rmatch (r : regex) (s : string) (caps : list string)
    (k : string -> list string -> option (list string))
    : option (list string) :=
  match r with
  | Eps => k s caps
  | Lit c =>
      match s with
      | String c' s' => if Ascii.eqb c c' then k s' caps else None
      | "" => None
      end
  | Plus cls =>
      match s with
      | String c' s' =>
          if cls c' then star cls s' (fun rest => k rest caps) else None
      | "" => None
      end
  | Star cls => star cls s (fun rest => k rest caps)
  | Group r' =>
      rmatch r' s caps (fun rest caps' =>
        k rest (caps' ++
                [PyStr.slice_to (String.length s - String.length rest) s])%list)
  | Seq r1 r2 =>
      rmatch r1 s caps (fun rest caps' => rmatch r2 rest caps' k)
  end.

(** [re.search(r, s)]: the leftmost match; the result is [m.groups()]. *)
Fixpoint search (r : regex) (s : string) : option (list string) :=
  match rmatch r s [] (fun _ caps => Some caps) with
  | Some caps => Some caps
  | None =>
      match s with
      | "" => None
      | String _ s' => search r s'
      end
  end.

(** A character that every text matched by [r] holds: a literal on the
    spine of the pattern. *)
Fixpoint needs_char (c : ascii) (r : regex) : bool :=
  match r with
  | Lit c' => Ascii.eqb c c'
  | Group r' => needs_char c r'
  | Seq r1 r2 => needs_char c r1 || needs_char c r2
  | Eps | Plus _ | Star _ => false
  end.

End Re.

(** ** Outcomes of procedures that may raise *)

Record exn := Exn { exn_class : string; exn_msg : string }.

Inductive outcome (A : Type) : Type :=
| Ok (a : A)
| Raise (e : exn)
| OutOfFuel.
Arguments Ok {A} a.
Arguments Raise {A} e.
Arguments OutOfFuel {A}.

#[global] Instance outcome_bind : MBind outcome := fun A B f m =>
  match m with
  | Ok a => f a
  | Raise e => Raise e
  | OutOfFuel => OutOfFuel
  end.

(** A procedure has settled when it answered, with a result that satisfies
    [P], or raised: it did not stop for want of fuel. *)
Definition settled {A : Type} (P : A -> Prop) (r : outcome A) : Prop :=
  match r with
  | Ok a => P a
  | Raise _ => True
  | OutOfFuel => False
  end.

(** ** capa/ida/plugin/view.py *)

Module View.
Import PyStr.

(** *** Line Classifier *)

Definition calc_level_by_indent (line : string) (prev_level : Z) : Z :=
  if is_empty (strip line) then
    (* blank line, which may occur for comments so we simply use the last
       level *)
    prev_level
  else
    let stripped := lstrip line in
    let line :=
      if startswith stripped "description"
      then slice_from 2 line   (* need to adjust two spaces *)
      else line in
    (Z.of_nat (String.length line) - Z.of_nat (String.length stripped))%Z.

(** [r"- count\(([a-zA-Z]+)\((.+)\s+=\s+(.+)\)\):\s*(.+)"] *)
Definition count_description_re : Re.regex :=
  Re.seqs [Re.lits "- count("; Re.Group (Re.Plus Re.alpha); Re.Lit "(";
           Re.Group (Re.Plus Re.dot); Re.Plus Re.ws; Re.Lit "=";
           Re.Plus Re.ws; Re.Group (Re.Plus Re.dot); Re.lits ")):";
           Re.Star Re.ws; Re.Group (Re.Plus Re.dot)].

(** [r"- count\(([a-zA-Z]+)\((.+)\)\): (.+)"] *)
Definition count_re : Re.regex :=
  Re.seqs [Re.lits "- count("; Re.Group (Re.Plus Re.alpha); Re.Lit "(";
           Re.Group (Re.Plus Re.dot); Re.lits ")): ";
           Re.Group (Re.Plus Re.dot)].

Definition parse_feature_for_node (feature : string)
    : string * string * string :=
  let '(feature, description, comment) :=
    if startswith feature "- count" then
      let '(feature, _, comment) := partition feature "#" in
      match Re.search count_description_re feature with
      | Some [name; value; description; count] =>
          (* reconstruct count without description *)
          ("- count(" ++ name ++ "(" ++ value ++ ")): " ++ count,
           description, comment)
      | _ => (feature, "", comment)
      end
    else if negb (startswith feature "#") then
      let '(feature, _, comment) := partition feature "#" in
      let '(feature, _, description) := partition feature "=" in
      (feature, description, comment)
    else (feature, "", "") in
  (strip feature, strip description, strip comment).

(** *** Tree Serializer, one node *)

Definition parse_node_for_feature
    (feature description comment : string) (depth : nat) : string :=
  let depth := depth * 2 + 4 in
  let with_comment (display : string) : string :=
    if negb (is_empty comment) then display ++ " # " ++ comment
    else display in
  let with_comment_nl (display : string) : string :=
    if negb (is_empty comment) then display ++ " # " ++ comment ++ nl
    else display in
  let display :=
    if startswith feature "#" then
      spaces depth ++ feature ++ nl
    else if negb (is_empty description) then
      if startswith_any feature
           ["- and"; "- or"; "- optional"; "- basic block"; "- not"] then
        with_comment (spaces depth ++ feature)
        ++ nl ++ spaces (depth + 2) ++ "- description: " ++ description ++ nl
      else if startswith feature "- string" then
        with_comment (spaces depth ++ feature)
        ++ nl ++ spaces (depth + 2) ++ "description: " ++ description ++ nl
      else if startswith feature "- count" then
        match Re.search count_re feature with
        | Some [name; value; count] =>
            if String.eqb name "string" then
              with_comment (spaces depth ++ feature)
              ++ nl ++ spaces (depth + 2) ++ "description: " ++ description
              ++ nl
            else
              with_comment_nl
                (spaces depth ++ "- count(" ++ name ++ "(" ++ value ++ " = "
                 ++ description ++ ")): " ++ count)
        | _ => ""
        end
      else
        with_comment_nl (spaces depth ++ feature ++ " = " ++ description)
    else
      with_comment_nl (spaces depth ++ feature) in
  if endswith display nl then display else display ++ nl.

(** *** Tree items

    A [QTreeWidgetItem] with the dynamically attached attributes
    [capa_level] and [capa_type]; [par] and [children] are Qt's parent
    and child links, as positions in the heap. *)

Record item := Item {
  feature_col : string;
  description_col : string;
  comment_col : string;
  capa_level : Z;
  capa_type : nat;
  par : option nat;
  children : list nat
}.

Definition get_node_type_expression : nat := 0.
Definition get_node_type_feature : nat := 1.
Definition get_node_type_comment : nat := 2.

(** [o.text(i)] and [o.setText(i, v)] for the three columns. *)
Definition text (o : item) (i : nat) : string :=
  match i with
  | 0 => feature_col o
  | 1 => description_col o
  | 2 => comment_col o
  | _ => ""
  end.

Definition setText (o : item) (i : nat) (v : string) : item :=
  match i with
  | 0 => Item v (description_col o) (comment_col o)
           (capa_level o) (capa_type o) (par o) (children o)
  | 1 => Item (feature_col o) v (comment_col o)
           (capa_level o) (capa_type o) (par o) (children o)
  | 2 => Item (feature_col o) (description_col o) v
           (capa_level o) (capa_type o) (par o) (children o)
  | _ => o
  end.

Definition yaml_to_nodes (s : string) : list item :=
  let level := 0%Z in
  map (fun line =>
         let '(feature, description, comment) :=
           parse_feature_for_node (strip line) in
         let lvl := calc_level_by_indent line level in
         let ty :=
           if startswith_any feature
                ["- and:"; "- or:"; "- not:"; "- basic block:"; "- optional:"]
           then get_node_type_expression
           else if startswith feature "#" then get_node_type_comment
           else get_node_type_feature in
         Item feature description comment lvl ty None [])
      (splitlines s).

(** *** The heap of items *)

Abbreviation heap := (list item).

Definition blank_item : item := Item "" "" "" 0 get_node_type_feature None [].

Definition get (h : heap) (i : nat) : item := default blank_item (h !! i).

Definition set_text (h : heap) (i col : nat) (v : string) : heap :=
  <[i := setText (get h i) col v]> h.

Definition childCount (h : heap) (i : nat) : nat :=
  List.length (children (get h i)).

(** [o.child(k)]: Qt answers a missing item outside [0 .. childCount-1];
    [k] is an integer, so [childCount() - 1] may be [-1]. *)
Definition child (h : heap) (i : nat) (k : Z) : option nat :=
  if (k <? 0)%Z then None else children (get h i) !! Z.to_nat k.

(** [parent.addChild(node)]: Qt ignores an item that already has a
    parent. *)
Definition addChild (h : heap) (p node : nat) : heap :=
  match par (get h node) with
  | Some _ => h
  | None =>
      let n := get h node in
      let h :=
        <[node := Item (feature_col n) (description_col n) (comment_col n)
                    (capa_level n) (capa_type n) (Some p) (children n)]> h in
      let q := get h p in
      <[p := Item (feature_col q) (description_col q) (comment_col q)
               (capa_level q) (capa_type q) (par q)
               (children q ++ [node])%list]> h
  end.

(** An attribute access on [None]. *)
Definition none_has_no (attr : string) : exn :=
  Exn "AttributeError"
      ("'NoneType' object has no attribute '" ++ attr ++ "'").

Definition deref {A : Type} (o : option nat) (attr : string)
    (k : nat -> outcome A) : outcome A :=
  match o with
  | Some i => k i
  | None => Raise (none_has_no attr)
  end.

(** *** Tree Builder: the local procedures of [load_features_from_yaml] *)

Definition add_node (parent : option nat) (node : nat) (h : heap)
    : outcome heap :=
  let t := text (get h node) 0 in
  if startswith t "description:" then
    deref parent "childCount" (fun p =>
      if negb (Nat.eqb (childCount h p) 0) then
        deref (child h p (Z.of_nat (childCount h p) - 1)) "setText" (fun c =>
          Ok (set_text h c 1 (lstrip (lstrip_chars "description:" t))))
      else
        Ok (set_text h p 1 (lstrip (lstrip_chars "description:" t))))
  else if startswith t "- description:" then
    deref parent "setText" (fun p =>
      Ok (set_text h p 1 (lstrip (lstrip_chars "- description:" t))))
  else
    deref parent "addChild" (fun p => Ok (addChild h p node)).

(** [build(parent, nodes)]; the list [nodes] is shared with the recursive
    call, which hands back what it has left of it.  [build_while] is the
    [while nodes:] loop with its local variables. *)
Fixpoint build (fuel : nat) (parent : option nat) (nodes : list nat)
    (h : heap) {struct fuel} : outcome (list nat * heap) :=
  match fuel with
  | 0 => OutOfFuel
  | S fuel =>
      match nodes with
      | [] => Ok (nodes, h)
      | n0 :: _ =>
          let child_lvl := capa_level (get h n0) in
          build_while fuel child_lvl parent nodes h
      end
  end
with build_while (fuel : nat) (child_lvl : Z) (parent : option nat)
    (nodes : list nat) (h : heap) {struct fuel}
    : outcome (list nat * heap) :=
  match fuel with
  | 0 => OutOfFuel
  | S fuel =>
      match nodes with
      | [] => Ok (nodes, h)
      | node :: nodes =>
          let lvl := capa_level (get h node) in
          if (lvl =? child_lvl)%Z then
            h ← add_node parent node h;
            build_while fuel child_lvl parent nodes h
          else if (lvl >? child_lvl)%Z then
            let nodes := node :: nodes in
            deref parent "child" (fun p =>
              '(nodes, h) ←
                build fuel (child h p (Z.of_nat (childCount h p) - 1))
                      nodes h;
              build_while fuel child_lvl parent nodes h)
          else
            deref parent "parent" (fun p =>
              let parent :=
                match par (get h p) with
                | Some g => Some g
                | None => parent
                end in
              h ← add_node parent node h;
              build_while fuel child_lvl parent nodes h)
      end
  end.

(** [build] has emptied the shared list. *)
Definition drained (r : list nat * heap) : Prop := r.1 = [].

(** *** The editor widget *)

Record editor := Editor {
  items : heap;
  top_level : list nat;
  root : option nat;
  preview : string
}.

Definition reset_view (ed : editor) : editor :=
  Editor [] [] None (preview ed).

Definition build_fuel (nodes : list nat) : nat := 3 * List.length nodes + 2.

Definition load_features_from_yaml (rule_text : string)
    (update_preview : bool) (ed : editor) : outcome editor :=
  let ed := reset_view ed in
  match find rule_text "features:" with
  | None => Ok ed   (* lack of features block *)
  | Some i =>
      let rule_features :=
        strip (slice_from (i + String.length "features:") rule_text) in
      let h := yaml_to_nodes rule_features in
      match seq 0 (List.length h) with
      | [] => Ok ed   (* lack of nodes *)
      | r :: rule_nodes =>
          let text := if update_preview then rule_text else preview ed in
          '(_, h) ← build (build_fuel rule_nodes) (Some r) rule_nodes h;
          Ok (Editor h [r] (Some r) text)
      end
  end.

(** [iterate_tree]: Qt's item iterator visits the tree in pre-order. *)
Fixpoint preorder (fuel : nat) (h : heap) (i : nat) : list nat :=
  match fuel with
  | 0 => []
  | S fuel => i :: flat_map (preorder fuel h) (children (get h i))
  end.

Definition iterate_tree (ed : editor) : list nat :=
  flat_map (preorder (List.length (items ed)) (items ed)) (top_level ed).

Fixpoint calc_item_depth_from (fuel : nat) (h : heap) (o : nat) (depth : nat)
    : nat :=
  match fuel with
  | 0 => depth
  | S fuel =>
      match par (get h o) with
      | None => depth
      | Some p => calc_item_depth_from fuel h p (depth + 1)
      end
  end.

Definition calc_item_depth (h : heap) (o : nat) : nat :=
  calc_item_depth_from (List.length h) h o 0.

(** *** Tree Serializer *)

Definition update_preview (ed : editor) : editor :=
  let rule_text := preview ed in
  let rule_text :=
    match find rule_text "features:" with
    | Some i => slice_to (i + String.length "features:") rule_text ++ nl
    | None => rstrip rule_text ++ nl ++ "  features:" ++ nl
    end in
  let rule_text :=
    fold_left
      (fun rule_text o =>
         let it := get (items ed) o in
         rule_text ++
         parse_node_for_feature (strip (text it 0)) (strip (text it 1))
           (strip (text it 2)) (calc_item_depth (items ed) o))
      (iterate_tree ed) rule_text in
  Editor (items ed) (top_level ed) (root ed) rule_text.

(** *** Features added from the feature list *)

(** What [update_features] asks of a feature object. *)
Class FeatureOps (Feature : Type) := {
  name_lower : Feature -> string;      (* [k.name.lower()] *)
  get_value_str : Feature -> string;   (* [k.get_value_str()] *)
  str : Feature -> string              (* [str(k)] *)
}.

(** The first argument of [QTreeWidgetItem(parent)]: the tree widget
    itself or one of its items. *)
Inductive owner := Widget | Parent (p : nat).

(** [QtWidgets.QTreeWidgetItem(parent)]: a fresh item, appended to the
    top-level items of the widget or to the children of the item.  The
    source gives such an item no [capa_level]; the heap holds 0 there. *)
Definition QTreeWidgetItem (parent : owner) (ed : editor) : nat * editor :=
  let o := List.length (items ed) in
  let h := (items ed ++ [blank_item])%list in
  match parent with
  | Widget =>
      (o, Editor h (top_level ed ++ [o])%list (root ed) (preview ed))
  | Parent p =>
      (o, Editor (addChild h p o) (top_level ed) (root ed) (preview ed))
  end.

(** [setattr(o, "capa_type", ty)]; fonts, brushes and flags are not
    modelled. *)
Definition set_capa_type (h : heap) (o : nat) (ty : nat) : heap :=
  let it := get h o in
  <[o := Item (feature_col it) (description_col it) (comment_col it)
           (capa_level it) ty (par it) (children it)]> h.

(** [for (i, v) in enumerate(values): o.setText(i, v)] *)
Definition set_texts (h : heap) (o : nat) (values : list string) : heap :=
  fold_left (fun h iv => set_text h o (fst iv) (snd iv))
    (combine (seq 0 (List.length values)) values) h.

Definition new_node (ty : nat) (parent : owner) (values : list string)
    (ed : editor) : nat * editor :=
  let '(o, ed) := QTreeWidgetItem parent ed in
  let h := set_capa_type (items ed) o ty in
  let h := set_texts h o values in
  (o, Editor h (top_level ed) (root ed) (preview ed)).

Definition new_expression_node := new_node get_node_type_expression.
Definition new_feature_node := new_node get_node_type_feature.
Definition new_comment_node := new_node get_node_type_comment.

Section Features.
Context {Feature : Type} `{EqDecision Feature} `{FeatureOps Feature}.

(** [Counter(features)]: a dict from the distinct elements, in the order
    in which they first occur, to the number of their occurrences;
    [counter_incr] is the update [c[k] = c.get(k, 0) + 1]. *)
Fixpoint counter_incr (k : Feature) (c : list (Feature * nat))
    : list (Feature * nat) :=
  match c with
  | [] => [(k, 1)]
  | (k', v) :: c =>
      if decide (k = k') then (k', S v) :: c
      else (k', v) :: counter_incr k c
  end.

Definition Counter (features : list Feature) : list (Feature * nat) :=
  fold_left (fun c k => counter_incr k c) features [].

(** The texts of the two kinds of feature node. *)
Definition single_text (k : Feature) : string :=
  "- " ++ name_lower k ++ ": " ++ get_value_str k.

Definition count_text (k : Feature) (v : nat) : string :=
  "- count(" ++ str k ++ "): " ++ pretty v.

(** [update_features]; [expandAll] changes no item. *)
Definition update_features (features : list Feature) (ed : editor)
    : editor :=
  let '(r, ed) :=
    match root ed with
    | Some r => (r, ed)
    | None =>
        (* root node does not exist, create default node *)
        let '(o, ed) := new_expression_node Widget ["- or:"; ""] ed in
        (o, Editor (items ed) (top_level ed) (Some o) (preview ed))
    end in
  (* build feature counts *)
  let counted := Counter features in
  (* single features *)
  let ed :=
    fold_left
      (fun ed kv =>
         snd (new_feature_node (Parent r) [single_text (fst kv); ""] ed))
      (List.filter (fun t => Nat.eqb (snd t) 1) counted) ed in
  (* n > 1 features *)
  let ed :=
    fold_left
      (fun ed kv =>
         snd (new_feature_node (Parent r)
                [count_text (fst kv) (snd kv); ""] ed))
      (List.filter (fun t => Nat.ltb 1 (snd t)) counted) ed in
  update_preview ed.

(** The number of times [k] occurs in [l]. *)
Definition occurrences (k : Feature) (l : list Feature) : nat :=
  List.length (List.filter (fun x => bool_decide (x = k)) l).

(** The distinct elements of [l], in the order in which they first
    occur. *)
Fixpoint first_occurrences (l : list Feature) : list Feature :=
  match l with
  | [] => []
  | x :: l => x :: List.filter (fun y => negb (bool_decide (y = x)))
                     (first_occurrences l)
  end.

(** The texts of the nodes for a selection: the features that occur once,
    then the others with the number of their occurrences, each group in
    the order of first occurrence. *)
Definition feature_texts (features : list Feature) : list string :=
  let keys := first_occurrences features in
  (map single_text
     (List.filter (fun k => Nat.eqb (occurrences k features) 1) keys)
   ++ map (fun k => count_text k (occurrences k features))
        (List.filter (fun k => Nat.ltb 1 (occurrences k features)) keys))%list.

End Features.

(** *** Notions used to state what the builder and the serializer keep *)

(** [h'] holds the lines of [h]: as many items, each with the feature
    text, the comment, the level and the type it has in [h]. *)
Definition same_lines (h h' : heap) : Prop :=
  List.length h' = List.length h
  /\ forall i,
       feature_col (get h' i) = feature_col (get h i)
       /\ comment_col (get h' i) = comment_col (get h i)
       /\ capa_level (get h' i) = capa_level (get h i)
       /\ capa_type (get h' i) = capa_type (get h i).

(** The text [update_preview] writes for the items of the tree, after the
    header. *)
Definition preview_body (ed : editor) : string :=
  fold_left
    (fun rule_text o =>
       let it := get (items ed) o in
       rule_text ++
       parse_node_for_feature (strip (text it 0)) (strip (text it 1))
         (strip (text it 2)) (calc_item_depth (items ed) o))
    (iterate_tree ed) "".

(** The item [q] with the items [cs] added after its children. *)
Definition with_children (q : item) (cs : list nat) : item :=
  Item (feature_col q) (description_col q) (comment_col q)
    (capa_level q) (capa_type q) (par q) (children q ++ cs)%list.

(** A node as [new_feature_node] and its like leave it under [r]. *)
Definition fresh_node (ty : nat) (r : option nat) (t : string) : item :=
  Item t "" "" 0 ty r [].

(** A line that [add_node] takes for a description. *)
Definition is_description_line (t : string) : bool :=
  startswith t "description:" || startswith t "- description:".

(** An item that [add_node] attaches: its line is no description. *)
Definition attachable (h : heap) (x : nat) : bool :=
  negb (is_description_line (feature_col (get h x))).

(** The tree of items as a value: an item with its children, in the order
    in which they were added. *)
#[local] Set Warnings "-register-all".
Inductive tree := T (i : nat) (ks : list tree).

Definition tid (t : tree) : nat := let 'T i _ := t in i.
Definition kids (t : tree) : list tree := let 'T _ ks := t in ks.

(** The items of a tree in pre-order. *)
Fixpoint flatten (t : tree) : list nat :=
  match t with
  | T i ks => i :: flat_map flatten ks
  end.

(** The heap holds the tree [t] under the parent [pr]. *)
Inductive rep (h : heap) : option nat -> tree -> Prop :=
| rep_T (pr : option nat) (i : nat) (ks : list tree) :
    par (get h i) = pr ->
    children (get h i) = map tid ks ->
    Forall (rep h (Some i)) ks ->
    rep h pr (T i ks).

(** The subtree [j] steps down the path of last children. *)
Fixpoint sub_at (j : nat) (t : tree) : option tree :=
  match j with
  | 0 => Some t
  | S j' =>
      match last (kids t) with
      | Some c => sub_at j' c
      | None => None
      end
  end.

(** [f] applied to the last element of a list. *)
Fixpoint on_last {A : Type} (f : A -> A) (l : list A) : list A :=
  match l with
  | [] => []
  | [x] => [f x]
  | x :: l' => x :: on_last f l'
  end.

(** [k] added as the last child of the subtree [j] steps down the path of
    last children. *)
Fixpoint ins (j : nat) (k : nat) (t : tree) : tree :=
  match j with
  | 0 => T (tid t) (kids t ++ [T k []])%list
  | S j' => T (tid t) (on_last (ins j' k) (kids t))
  end.

(** What the builder relies on while it reads [nodes] into the tree [t]:
    the heap holds [t] as a top-level tree, no item occurs twice, the items
    still to read are unlinked, and all are items of the heap. *)
Definition building (h : heap) (t : tree) (nodes : list nat) : Prop :=
  rep h None t
  /\ NoDup (flatten t ++ nodes)%list
  /\ (forall x, x ∈ nodes -> par (get h x) = None /\ children (get h x) = [])
  /\ (forall x, x ∈ (flatten t ++ nodes)%list -> x < List.length h).

(** *** What the specification says of the Tree Builder *)

(** The target of a description line: "the most-recently-added sibling,
    or the parent itself if no sibling exists yet". *)
Definition hoist_target (h : heap) (p : nat) : nat :=
  match last (children (get h p)) with
  | Some c => c
  | None => p
  end.

(** The target of a drop in depth: "the nearest ancestor whose level
    matches, falling back to the immediate parent if no exact ancestor is
    found", read on the items' own levels. *)
Fixpoint nearest_ancestor_at (fuel : nat) (h : heap) (o : nat) (lvl : Z)
    : option nat :=
  match fuel with
  | 0 => None
  | S fuel =>
      match par (get h o) with
      | None => None
      | Some a =>
          if (capa_level (get h a) =? lvl)%Z then Some a
          else nearest_ancestor_at fuel h a lvl
      end
  end.

Definition ascend_target (h : heap) (p : nat) (lvl : Z) : nat :=
  match nearest_ancestor_at (List.length h) h p lvl with
  | Some a => a
  | None =>
      match par (get h p) with
      | Some g => g
      | None => p
      end
  end.

(** The same target read on the levels of the lines an item holds: the
    nearest item, from [o] upwards, whose children sit at depth [lvl]. *)
Definition holds_level (h : heap) (o : nat) (lvl : Z) : bool :=
  match children (get h o) with
  | c :: _ => (capa_level (get h c) =? lvl)%Z
  | [] => false
  end.

Fixpoint nearest_holder_at (fuel : nat) (h : heap) (o : nat) (lvl : Z)
    : option nat :=
  match fuel with
  | 0 => None
  | S fuel =>
      if holds_level h o lvl then Some o
      else
        match par (get h o) with
        | None => None
        | Some a => nearest_holder_at fuel h a lvl
        end
  end.

End View.

(** ** scripts/detect_duplicate_features.py *)

Module Detect.
Import PyStr.

Section WithFeature.
(** A feature is an opaque value compared with [==]. *)
Context {Feature : Type} `{EqDecision Feature}.

(** The statements of [capa.engine]; anything that is none of the six
    combinators is a feature. *)
#[local] Set Warnings "-register-all".
Inductive Statement :=
| And (children : list Statement)
| Or (children : list Statement)
| Some_ (count : nat) (children : list Statement)
| Not (child : Statement)
| Subscope (scope : string) (child : Statement)
| Range (child : Statement) (min max : nat)
| Leaf (f : Feature).

(** [children] is the local list; [extend] and [append] add at its
    end. *)
Fixpoint get_child_features (feature : Statement) : list Feature :=
  let children := [] in
  match feature with
  | And cs | Or cs | Some_ _ cs =>
      fold_left
        (fun children child => children ++ get_child_features child)%list
        cs children
  | Subscope _ c | Range c _ _ | Not c =>
      (children ++ get_child_features c)%list
  | Leaf f => (children ++ [f])%list
  end.

(** What the script asks of its surroundings: [open] and [f.read()] on a
    path, [capa.rules.Rule.from_yaml] (the rule's [statement]) and
    [capa.main.get_rules] (the items of [ruleset.rules], in order). *)
Record world := World {
  w_open : string -> exn + (exn + string);
  w_from_yaml : string -> exn + Statement;
  w_get_rules : list string -> exn + list (string * Statement)
}.

Inductive event :=
| EvOpen (path : string)
| EvGetRules (paths : list string).

(** [str(type(e))] and [str(e)]. *)
Definition str_type (e : exn) : string := "<class '" ++ exn_class e ++ "'>".
Definition str_exn (e : exn) : string := exn_msg e.

Definition get_features (w : world) (rule_path : string)
    : list event * outcome (list Feature) :=
  ([EvOpen rule_path],
   match w_open w rule_path with
   | inl e => Raise e
   | inr f =>
       let wrap (e : exn) :=
         Raise (Exn "Warning"
                  ("Error: " ++ rule_path ++ " " ++ str_type e ++ " "
                   ++ str_exn e)) in
       match f with
       | inl e => wrap e
       | inr content =>
           match w_from_yaml w content with
           | inl e => wrap e
           | inr statement => Ok (get_child_features statement)
           end
       end
   end).

Record result := Result {
  overlapping_rules : list string;
  count : nat
}.

Definition any (l : list bool) : bool := existsb id l.

(** [feature in rule_features] *)
Definition contains (rule_features : list Feature) (f : Feature) : bool :=
  bool_decide (f ∈ rule_features).

(** One turn of the loop over [ruleset.rules.items()]. *)
Definition check_rule (new_rule_features : list Feature)
    (acc : list string * nat) (it : string * Statement)
    : list string * nat :=
  let '(overlapping_rules, count) := acc in
  let '(rule_name, statement) := it in
  let rule_features := get_child_features statement in
  if Nat.eqb (List.length rule_features) 0 then acc   (* continue *)
  else
    let count := count + 1 in
    (* Checks if any features match between existing and new rule. *)
    if any (map (contains rule_features) new_rule_features)
    then ((overlapping_rules ++ [rule_name])%list, count)
    else (overlapping_rules, count).

Definition bad_file_name : exn :=
  Exn "FileNotFoundError"
      "FileNotFoundError ! New rule file name doesn't end with yml".

Definition find_overlapping_rules (w : world) (new_rule_path : string)
    (rules_path : list string) : list event * outcome result :=
  if negb (endswith new_rule_path ".yml") then ([], Raise bad_file_name)
  else
    (* Loads features of new rule in a list. *)
    let '(tr, r) := get_features w new_rule_path in
    match r with
    | Raise e => (tr, Raise e)
    | OutOfFuel => (tr, OutOfFuel)
    | Ok new_rule_features =>
        let tr := (tr ++ [EvGetRules rules_path])%list in
        match w_get_rules w rules_path with
        | inl e => (tr, Raise e)
        | inr ruleset =>
            let '(overlapping_rules, count) :=
              fold_left (check_rule new_rule_features) ruleset ([], 0) in
            (tr, Ok (Result overlapping_rules count))
        end
    end.

(** *** What the specification says of the flattener

    The pre-order sequence of leaves, written as the contract words it:
    a combinator with a list of children gives the concatenation of its
    children's sequences, a combinator with one child gives the child's
    sequence, a leaf gives itself. *)
Fixpoint preorder_leaves (e : Statement) : list Feature :=
  match e with
  | And cs | Or cs | Some_ _ cs => List.concat (map preorder_leaves cs)
  | Not c | Subscope _ c | Range c _ _ => preorder_leaves c
  | Leaf f => [f]
  end.

(** The number of [Leaf] occurrences in a statement. *)
Fixpoint leaf_occurrences (e : Statement) : nat :=
  match e with
  | And cs | Or cs | Some_ _ cs => list_sum (map leaf_occurrences cs)
  | Not c | Subscope _ c | Range c _ _ => leaf_occurrences c
  | Leaf _ => 1
  end.

End WithFeature.
Arguments Statement : clear implicits.
Arguments world : clear implicits.

End Detect.

(** ** Sample rules and surroundings *)

Module Samples.
Import PyStr View Detect.

Definition empty_editor : editor := Editor [] [] None "".

(** A rule text from its lines, each one newline-terminated. *)
Definition rule_of_lines (l : list string) : string := join_lines l ++ nl.

(** Load a rule text into the editor, then regenerate the preview. *)
Definition reload (rule_text : string) : outcome string :=
  ed ← load_features_from_yaml rule_text true empty_editor;
  Ok (preview (update_preview ed)).

Definition description_rule : string :=
  rule_of_lines
    ["rule:"; "  meta:"; "    name: open a file"; "  features:";
     "    - and:";
     "      - description: open file";
     "      - api: CreateFileA"].

Definition description_rule_reloaded : string :=
  rule_of_lines
    ["rule:"; "  meta:"; "    name: open a file"; "  features:";
     "    - and:";
     "      - description: file";
     "      - api: CreateFileA"].

Definition plain_rule : string :=
  rule_of_lines
    ["rule:"; "  meta:"; "    name: create mutex"; "  features:";
     "    - and:";
     "      # synchronisation";
     "      - or:";
     "        - api: CreateMutexA = ANSI";
     "        - string: Global-mtx # name";
     "          description: mutex name";
     "      - count(number(5 = desc)): 3 # note"].

Definition count_rule : string :=
  rule_of_lines
    ["rule:"; "  features:"; "    - count(number(5 = desc)): 3 # note"].

Definition deep_dedent_rule : string :=
  rule_of_lines
    ["rule:"; "  features:";
     "    - and:";
     "      - or:";
     "        - and:";
     "          - or:";
     "            - api: a";
     "      - api: c"].

Definition deep_dedent_rule_reloaded : string :=
  rule_of_lines
    ["rule:"; "  features:";
     "    - and:";
     "      - or:";
     "        - and:";
     "          - or:";
     "            - api: a";
     "          - api: c"].

Definition orphan_child_rule : string :=
  rule_of_lines
    ["rule:"; "  features:";
     "    - and:";
     "      - description: foo";
     "        - api: x"].

Definition blank_line_body : string :=
  join_lines ["- or:"; "      - and:"; ""; "        - api: x"].

(** A parent with one child, and a description line in each syntax. *)
Definition sibling_heap (description_line : string) : heap :=
  [Item "- and:" "" "" 0 get_node_type_expression None [1];
   Item "- api: CreateFileA" "" "" 6 get_node_type_feature (Some 0) [];
   Item description_line "" "" 6 get_node_type_feature None []].

(** Rules whose features are strings. *)
Definition new_rule : Statement string :=
  And [Leaf "mutex: foo"; Leaf "api: CreateFileA"].

Definition candidates : list (string * Statement string) :=
  [("X", Or [Leaf "api: CreateFileA"]);
   ("match-any", And []);
   ("Y", Not (Leaf "api: WriteFile"))].

Definition sample_world : world string :=
  World (fun path => inr (inr path))
        (fun content => inr new_rule)
        (fun paths => inr candidates).

(** Features as pairs of a lower-case name and a value. *)
#[global] Instance pair_feature : FeatureOps (string * string) := {
  name_lower := fst;
  get_value_str := snd;
  str k := fst k ++ "(" ++ snd k ++ ")"
}.

(** A selection in which one feature occurs twice. *)
Definition selection : list (string * string) :=
  [("api", "CreateFileA"); ("number", "5"); ("api", "CreateFileA")].

(** An editor that holds a root and nothing else. *)
Definition or_editor : editor :=
  Editor [Item "- or:" "" "" 0 get_node_type_expression None []]
    [0] (Some 0) "".

(** Surroundings in which the new rule opens but does not parse. *)
Definition broken_world : world string :=
  World (fun path => inr (inr path))
        (fun content => inl (Exn "capa.rules.InvalidRule" "no features"))
        (fun paths => inr candidates).

End Samples.

(** * Properties of the Expression Flattener and of overlap detection *)

Section DetectProps.
Import PyStr Detect.
Context {Feature : Type} `{EqDecision Feature}.
Abbreviation Stmt := (Statement Feature).

(** Induction on statements, with the hypothesis for every child of a
    combinator. *)
Lemma Statement_Forall_ind (P : Stmt -> Prop) :
  (forall cs, Forall P cs -> P (And cs)) ->
  (forall cs, Forall P cs -> P (Or cs)) ->
  (forall n cs, Forall P cs -> P (Some_ n cs)) ->
  (forall c, P c -> P (Not c)) ->
  (forall sc c, P c -> P (Subscope sc c)) ->
  (forall c lo hi, P c -> P (Range c lo hi)) ->
  (forall f, P (Leaf f)) ->
  forall e, P e.
Proof.
  intros HAnd HOr HSome HNot HSub HRange HLeaf.
  fix IH 1.
  assert (IHs : forall cs, Forall P cs).
  { fix IHs 1. intros [|c cs]; constructor; [apply IH | apply IHs]. }
  intros [cs|cs|n cs|c|sc c|c lo hi|f].
  - apply HAnd, IHs.
  - apply HOr, IHs.
  - apply HSome, IHs.
  - apply HNot, IH.
  - apply HSub, IH.
  - apply HRange, IH.
  - apply HLeaf.
Qed.

(** Extending the local list child after child concatenates. *)
Lemma extend_children {A B : Type} (g : A -> list B) (cs : list A)
    (acc : list B) :
  fold_left (fun children child => children ++ g child)%list cs acc
  = (acc ++ List.concat (map g cs))%list.
Proof.
  revert acc; induction cs as [|c cs IH]; intros acc; simpl.
  - now rewrite app_nil_r.
  - rewrite IH. now rewrite <- app_assoc.
Qed.

Lemma get_child_features_children (cs : list Stmt) :
  Forall (fun c => get_child_features c = preorder_leaves c) cs ->
  fold_left (fun children child => children ++ get_child_features child)%list
    cs []
  = List.concat (map preorder_leaves cs).
Proof.
  intros HF. rewrite extend_children. simpl. f_equal.
  induction HF as [|c cs Hc _ IH]; simpl; congruence.
Qed.

Lemma preorder_leaves_length (e : Stmt) :
  List.length (preorder_leaves e) = leaf_occurrences e.
Proof.
  induction e as [cs IH|cs IH|n cs IH|c IH|sc c IH|c lo hi IH|f]
    using Statement_Forall_ind; simpl; auto;
    induction IH as [|c cs Hc _ IHcs]; simpl; auto;
    rewrite length_app; congruence.
Qed.

(** C2.  For every statement, [get_child_features] returns the pre-order
    sequence of its leaves: the concatenation, in order, of the children's
    results under [And], [Or] and [Some]; the child's result under [Not],
    [Subscope] and [Range]; the leaf alone for a leaf.  Its length is the
    number of leaf occurrences: nothing is dropped or de-duplicated. *)
Theorem get_child_features_preorder (e : Stmt) :
  get_child_features e = preorder_leaves e
  /\ List.length (get_child_features e) = leaf_occurrences e
  /\ (forall cs : list Stmt, get_child_features (And cs)
                 = List.concat (map get_child_features cs))
  /\ (forall cs : list Stmt, get_child_features (Or cs)
                 = List.concat (map get_child_features cs))
  /\ (forall n (cs : list Stmt), get_child_features (Some_ n cs)
                   = List.concat (map get_child_features cs))
  /\ (forall c : Stmt, get_child_features (Not c) = get_child_features c)
  /\ (forall sc (c : Stmt),
        get_child_features (Subscope sc c) = get_child_features c)
  /\ (forall (c : Stmt) lo hi, get_child_features (Range c lo hi)
                      = get_child_features c)
  /\ (forall f : Feature, get_child_features (Leaf f) = [f]).
Proof.
  assert (Hpre : forall e : Stmt, get_child_features e = preorder_leaves e).
  { induction e0 as [cs IH|cs IH|n cs IH|c IH|sc c IH|c lo hi IH|f]
      using Statement_Forall_ind; simpl; auto;
      now apply get_child_features_children. }
  split; [apply Hpre|].
  split; [rewrite Hpre; apply preorder_leaves_length|].
  repeat split; intros; simpl; auto; now rewrite extend_children.
Qed.

(** [any([feature in rule_features for feature in new_rule_features])] *)
Lemma any_contains (rule_features new_rule_features : list Feature) :
  any (map (contains rule_features) new_rule_features) = true
  <-> Exists (fun f => f ∈ rule_features) new_rule_features.
Proof.
  unfold any, contains. rewrite Exists_exists, existsb_exists. split.
  - intros (b & Hb & Hid). apply in_map_iff in Hb as (f & <- & Hf).
    exists f. split; [now apply list_elem_of_In|].
    now apply bool_decide_eq_true in Hid.
  - intros (f & Hf & Hin). exists true. split; [|reflexivity].
    apply in_map_iff. exists f. split; [|now apply list_elem_of_In].
    now apply bool_decide_eq_true.
Qed.

(** The loop over the candidates, as two filters. *)
Lemma check_rule_fold (new_rule_features : list Feature)
    (ruleset : list (string * Stmt)) (ov : list string) (n : nat) :
  fold_left (check_rule new_rule_features) ruleset (ov, n)
  = ((ov ++ (filter (fun it => Exists (fun f => f ∈ get_child_features it.2)
                                 new_rule_features) ruleset).*1)%list,
     n + List.length
           (filter (fun it => get_child_features it.2 <> []) ruleset)).
Proof.
  revert ov n. induction ruleset as [|[name st] rs IH]; intros ov n.
  - simpl. now rewrite app_nil_r, Nat.add_0_r.
  - cbn [fold_left]. rewrite !filter_cons. unfold check_rule at 2.
    cbn [snd].
    destruct (get_child_features st) as [|f0 fs] eqn:Hfs.
    + cbn [List.length Nat.eqb]. rewrite IH.
      destruct (decide _) as [HE|_].
      { apply Exists_exists in HE as (f & _ & Hin). inversion Hin. }
      destruct (decide _) as [Hne|_]; [congruence|]. reflexivity.
    + cbn [List.length Nat.eqb].
      destruct (decide (f0 :: fs <> [])) as [_|Hne]; [|now destruct Hne].
      destruct (any _) eqn:Hany.
      * apply any_contains in Hany.
        destruct (decide _) as [_|HnE]; [|now destruct HnE].
        rewrite IH. cbn [fmap list_fmap fst List.length].
        f_equal; [now rewrite <- app_assoc | lia].
      * destruct (decide _) as [HE|_].
        { apply any_contains in HE. congruence. }
        rewrite IH. cbn [List.length]. f_equal. lia.
Qed.

(** C8.  When the new rule loads and the rule set is read, the result
    counts exactly the candidates whose flattened feature list is not
    empty, and names exactly the candidates that share a feature with the
    new rule, in the order of the rule set. *)
Theorem find_overlapping_rules_counts_and_reports (w : world Feature)
    (new_rule_path : string) (rules_path : list string)
    (tr : list event) (new_rule_features : list Feature)
    (ruleset : list (string * Stmt)) :
  endswith new_rule_path ".yml" = true ->
  get_features w new_rule_path = (tr, Ok new_rule_features) ->
  w_get_rules w rules_path = inr ruleset ->
  exists res,
    find_overlapping_rules w new_rule_path rules_path
    = ((tr ++ [EvGetRules rules_path])%list, Ok res)
    /\ count res
       = List.length
           (filter (fun it => get_child_features it.2 <> []) ruleset)
    /\ overlapping_rules res
       = (filter (fun it => Exists (fun f => f ∈ get_child_features it.2)
                              new_rule_features) ruleset).*1
    /\ (forall name,
          name ∈ overlapping_rules res
          <-> exists st f, (name, st) ∈ ruleset
                           /\ f ∈ new_rule_features
                           /\ f ∈ get_child_features st).
Proof.
  intros Hyml Hnew Hrules. unfold find_overlapping_rules.
  rewrite Hyml, Hnew, Hrules. cbn [negb]. rewrite check_rule_fold.
  eexists. split; [reflexivity|]. cbn [count overlapping_rules].
  split; [reflexivity|]. split; [reflexivity|].
  intros name. rewrite app_nil_l, list_elem_of_fmap. split.
  - intros ([name' st] & -> & Hin).
    apply list_elem_of_filter in Hin as [HE Hin].
    apply Exists_exists in HE as (f & Hf & Hfst). cbn [snd] in Hfst.
    exists st, f. split; [exact Hin|]. split; [exact Hf|exact Hfst].
  - intros (st & f & Hin & Hf & Hfst). exists (name, st). split; [reflexivity|].
    apply list_elem_of_filter. split; [|exact Hin].
    apply Exists_exists. exists f. split; [exact Hf|exact Hfst].
Qed.

(** C9.  A new-rule path that does not end in [.yml] raises the file-name
    error with no file opened and no rule set read; a path that ends in
    [.yml] passes the check: the new rule's file is opened, and the
    file-name error can then only come from the surroundings. *)
Theorem find_overlapping_rules_suffix_check (w : world Feature)
    (new_rule_path : string) (rules_path : list string) :
  (endswith new_rule_path ".yml" = false ->
     find_overlapping_rules w new_rule_path rules_path
     = ([], Raise bad_file_name))
  /\ (endswith new_rule_path ".yml" = true ->
        exists tr r,
          find_overlapping_rules w new_rule_path rules_path
          = (EvOpen new_rule_path :: tr, r)
          /\ (w_open w new_rule_path <> inl bad_file_name ->
              w_get_rules w rules_path <> inl bad_file_name ->
              r <> Raise bad_file_name)).
Proof.
  unfold find_overlapping_rules. split; intros ->; cbn [negb]; [reflexivity|].
  unfold get_features.
  destruct (w_open w new_rule_path) as [e|[e|content]] eqn:Hopen.
  - eexists _, _. split; [reflexivity|]. intros Ho _. congruence.
  - eexists _, _. split; [reflexivity|]. intros _ _. discriminate.
  - destruct (w_from_yaml w content) as [e|st].
    + eexists _, _. split; [reflexivity|]. intros _ _. discriminate.
    + destruct (w_get_rules w rules_path) as [e|ruleset] eqn:Hget.
      * eexists _, _. split; [reflexivity|]. intros _ Hg. congruence.
      * destruct (fold_left _ _ _) as [ov n].
        eexists _, _. split; [reflexivity|]. intros _ _. discriminate.
Qed.

End DetectProps.

Section DetectWitnesses.
Import PyStr Detect Samples.

Lemma find_overlapping_rules_counts_and_reports_witness :
  exists res,
    find_overlapping_rules sample_world "new.yml" ["rules"]
    = ([EvOpen "new.yml"; EvGetRules ["rules"]], Ok res)
    /\ count res = 2
    /\ overlapping_rules res = ["X"].
Proof.
  destruct (find_overlapping_rules_counts_and_reports sample_world
              "new.yml" ["rules"] [EvOpen "new.yml"]
              (get_child_features new_rule) candidates
              eq_refl eq_refl eq_refl)
    as (res & Hrun & Hcount & Hov & _).
  exists res. split; [exact Hrun|].
  split; [rewrite Hcount | rewrite Hov]; vm_compute; reflexivity.
Defined.

Lemma find_overlapping_rules_suffix_check_witness :
  find_overlapping_rules sample_world "rule.yaml" ["rules"]
  = ([], Raise bad_file_name)
  /\ exists tr r,
       find_overlapping_rules sample_world "rule.yml" ["rules"]
       = (EvOpen "rule.yml" :: tr, r)
       /\ r <> Raise bad_file_name.
Proof.
  split.
  - exact (proj1 (find_overlapping_rules_suffix_check sample_world
                    "rule.yaml" ["rules"]) eq_refl).
  - destruct (proj2 (find_overlapping_rules_suffix_check sample_world
                       "rule.yml" ["rules"]) eq_refl)
      as (tr & r & Hrun & Hr).
    exists tr, r. split; [exact Hrun|].
    apply Hr; discriminate.
Defined.

End DetectWitnesses.

(** * Properties of the Line Classifier and of the Tree Serializer *)

Section LineProps.
Import PyStr View Samples.

Lemma append_assoc (a b c : string) : (a ++ b) ++ c = a ++ (b ++ c).
Proof.
  induction a as [|x a IH]; [reflexivity|].
  change (String x ((a ++ b) ++ c) = String x (a ++ b ++ c)).
  now rewrite IH.
Qed.

Lemma endswith_append (a b p : string) :
  endswith b p = true -> endswith (a ++ b) p = true.
Proof.
  intros Hb. induction a as [|c a IH]; [exact Hb|].
  change (endswith (String c a ++ b) p)
    with (String.eqb (String c (a ++ b)) p || endswith (a ++ b) p).
  rewrite IH. apply orb_true_r.
Qed.

(** Evaluate the tests of the serializer that do not depend on the
    indentation. *)
Ltac ev t :=
  let v := eval vm_compute in t in
  replace t with v by (vm_compute; reflexivity).

Ltac ev_tests :=
  repeat match goal with
  | |- context [startswith ?a ?b] => ev (startswith a b)
  | |- context [startswith_any ?a ?b] => ev (startswith_any a b)
  | |- context [is_empty ?a] => ev (is_empty a)
  | |- context [Re.search ?r ?a] => ev (Re.search r a)
  | |- context [String.eqb ?a ?b] => ev (String.eqb a b)
  end.

Ltac newline_terminated :=
  match goal with
  | |- (if endswith ?D nl then _ else _) = _ =>
      let E := fresh "E" in
      assert (E : endswith D nl = true)
        by (rewrite ?append_assoc; repeat apply endswith_append;
            reflexivity);
      rewrite E; clear E
  end.

(** C6.  At every depth, the classified line
    [- count(number(5 = desc)): 3 # note] is serialized back as that very
    line, indented and newline-terminated, while
    [- count(string(5 = desc)): 3 # note] is serialized in two lines, the
    second one a [description:] line two spaces deeper.  A rule made of
    the first line reloads to itself. *)
Theorem count_feature_symmetry (depth : nat) :
  (let '(f, d, c) :=
     parse_feature_for_node "- count(number(5 = desc)): 3 # note" in
   parse_node_for_feature f d c depth)
  = spaces (depth * 2 + 4) ++ "- count(number(5 = desc)): 3 # note" ++ nl
  /\ (let '(f, d, c) :=
        parse_feature_for_node "- count(string(5 = desc)): 3 # note" in
      parse_node_for_feature f d c depth)
     = spaces (depth * 2 + 4) ++ "- count(string(5)): 3 # note" ++ nl
       ++ spaces (depth * 2 + 4 + 2) ++ "description: desc" ++ nl
  /\ reload count_rule = Ok count_rule.
Proof.
  split; [|split].
  - ev (parse_feature_for_node "- count(number(5 = desc)): 3 # note").
    cbv beta iota. unfold parse_node_for_feature.
    cbv zeta. ev_tests. cbv beta iota delta [negb].
    newline_terminated. rewrite ?append_assoc. reflexivity.
  - ev (parse_feature_for_node "- count(string(5 = desc)): 3 # note").
    cbv beta iota. unfold parse_node_for_feature.
    cbv zeta. ev_tests. cbv beta iota delta [negb].
    newline_terminated. rewrite ?append_assoc. reflexivity.
  - vm_compute. reflexivity.
Qed.

(** C7, as the claim states it, fails: a [- count] line that the pattern
    does not match keeps its trailing comment apart from the feature. *)
Lemma count_line_keeps_comment :
  ~ (forall line,
       startswith line "- count" = true ->
       Re.search count_description_re line = None ->
       parse_feature_for_node line = (strip line, "", "")).
Proof.
  intros H.
  specialize (H "- count(mnemonic(mov)): 3 # note" eq_refl eq_refl).
  vm_compute in H. discriminate H.
Qed.

(** C7, amended.  For a line beginning with [- count], the text after the
    first [#] is the comment; when the pattern does not match the text
    before it, that text is the feature as it stands and the description
    is empty.  All three are stripped; nothing is raised. *)
Theorem parse_feature_for_node_count_unmatched (line : string) :
  startswith line "- count" = true ->
  Re.search count_description_re (partition line "#").1.1 = None ->
  parse_feature_for_node line
  = (strip (partition line "#").1.1, "", strip (partition line "#").2).
Proof.
  intros Hcount Hnone. unfold parse_feature_for_node. rewrite Hcount.
  destruct (partition line "#") as [[feature sep] comment].
  cbn [fst snd] in *. rewrite Hnone. reflexivity.
Qed.

Lemma parse_feature_for_node_count_unmatched_witness :
  parse_feature_for_node "- count(mnemonic(mov)): 3 # note"
  = ("- count(mnemonic(mov)): 3", "", "note").
Proof.
  exact (parse_feature_for_node_count_unmatched
           "- count(mnemonic(mov)): 3 # note" eq_refl eq_refl).
Defined.

(** A blank line is given the level [yaml_to_nodes] starts from, wherever
    it stands. *)
Lemma yaml_to_nodes_blank_level (s line : string) (i : nat) :
  splitlines s !! i = Some line ->
  is_empty (strip line) = true ->
  capa_level <$> yaml_to_nodes s !! i = Some 0%Z.
Proof.
  intros Hline Hblank. unfold yaml_to_nodes.
  rewrite list_lookup_fmap, Hline. cbn [fmap option_fmap option_map].
  destruct (parse_feature_for_node (strip line)) as [[f d] c].
  cbn [capa_level]. unfold calc_level_by_indent. now rewrite Hblank.
Qed.

(** C3, on the code.  In the body made of the lines [- or:],
    [      - and:], an empty line and [        - api: x], the empty line
    gets level 0 while the line before it has level 6. *)
Theorem blank_line_level_is_reset :
  map capa_level (yaml_to_nodes blank_line_body) = [0; 6; 0; 8]%Z
  /\ calc_level_by_indent "" 6 = 6%Z.
Proof. split; vm_compute; reflexivity. Qed.

End LineProps.

(** * Properties of the Tree Builder *)

Section BuilderProps.
Import PyStr View Samples.

(** Setting a text leaves the links of every item as they were. *)
Lemma get_set_text (h : heap) (x col : nat) (v : string) (i : nat) :
  children (get (set_text h x col v) i) = children (get h i)
  /\ par (get (set_text h x col v) i) = par (get h i).
Proof.
  unfold set_text, get. destruct (decide (x = i)) as [->|Hne].
  - destruct (h !! i) as [o|] eqn:Hi.
    + rewrite list_lookup_insert_eq by (eapply lookup_lt_Some; eauto).
      cbn [default]. destruct col as [|[|[|col]]]; split; reflexivity.
    + rewrite list_insert_ge by (now apply lookup_ge_None).
      now rewrite Hi.
  - rewrite list_lookup_insert_ne by exact Hne. split; reflexivity.
Qed.

(** [parent.child(parent.childCount() - 1)] is the last child. *)
Lemma child_last (h : heap) (p : nat) :
  child h p (Z.of_nat (childCount h p) - 1) = last (children (get h p)).
Proof.
  unfold child, childCount. rewrite last_lookup.
  destruct (children (get h p)) as [|c cs]; [reflexivity|].
  cbn [List.length]. replace (Z.of_nat (S (List.length cs)) - 1)%Z
    with (Z.of_nat (List.length cs)) by lia.
  destruct (Z.ltb_spec (Z.of_nat (List.length cs)) 0); [lia|].
  now rewrite Nat2Z.id.
Qed.

Lemma dash_description_not_description (t : string) :
  startswith t "- description:" = true ->
  startswith t "description:" = false.
Proof.
  destruct t as [|c t]; [discriminate|]. unfold startswith.
  cbn [String.prefix]. destruct (ascii_dec "-" c) as [<-|]; [|discriminate].
  reflexivity.
Qed.

(** C5, as the claim states it, fails: with a sibling already added, a
    [- description:] line does not set the sibling's description. *)
Lemma dash_description_skips_sibling :
  ~ (forall (h : heap) (p node : nat),
       startswith (text (get h node) 0) "- description:" = true ->
       exists v,
         add_node (Some p) node h = Ok (set_text h (hoist_target h p) 1 v)).
Proof.
  intros H.
  destruct (H (sibling_heap "- description: x") 0 2 eq_refl) as [v Hv].
  vm_compute in Hv. discriminate Hv.
Qed.

(** C5, amended.  A line handed to [add_node] whose feature text begins
    with [description:] sets the description of the last child of the
    parent, or of the parent when it has no child; one whose text begins
    with [- description:] sets the description of the parent, whether or
    not it has children.  In both cases no item is attached: every item
    keeps its children and its parent. *)
Theorem add_node_description (h : heap) (p node : nat) :
  let t := text (get h node) 0 in
  (startswith t "description:" = true ->
     add_node (Some p) node h
     = Ok (set_text h (hoist_target h p) 1
             (lstrip (lstrip_chars "description:" t))))
  /\ (startswith t "- description:" = true ->
        add_node (Some p) node h
        = Ok (set_text h p 1 (lstrip (lstrip_chars "- description:" t))))
  /\ (startswith t "description:" = true
      \/ startswith t "- description:" = true ->
        exists h',
          add_node (Some p) node h = Ok h'
          /\ forall i, children (get h' i) = children (get h i)
                       /\ par (get h' i) = par (get h i)).
Proof.
  intros t.
  assert (Hplain : startswith t "description:" = true ->
            add_node (Some p) node h
            = Ok (set_text h (hoist_target h p) 1
                    (lstrip (lstrip_chars "description:" t)))).
  { intros Hd. unfold add_node. fold t. rewrite Hd. cbn [deref].
    unfold hoist_target. rewrite child_last. unfold childCount.
    destruct (children (get h p)) as [|c cs] eqn:Hcs; [reflexivity|].
    cbn [List.length Nat.eqb negb].
    destruct (last (c :: cs)) as [l|] eqn:Hlast; [reflexivity|].
    apply last_None in Hlast. discriminate Hlast. }
  assert (Hdash : startswith t "- description:" = true ->
            add_node (Some p) node h
            = Ok (set_text h p 1
                    (lstrip (lstrip_chars "- description:" t)))).
  { intros Hd. unfold add_node. fold t.
    rewrite (dash_description_not_description t Hd), Hd. reflexivity. }
  split; [exact Hplain|]. split; [exact Hdash|].
  intros [Hd|Hd]; eexists; (split; [eauto|]); intros i; apply get_set_text.
Qed.

Lemma add_node_description_witness :
  add_node (Some 0) 2 (sibling_heap "description: x")
  = Ok (set_text (sibling_heap "description: x") 1 1 "x")
  /\ add_node (Some 0) 2 (sibling_heap "- description: x")
     = Ok (set_text (sibling_heap "- description: x") 0 1 "x").
Proof.
  split.
  - exact (proj1 (add_node_description
                    (sibling_heap "description: x") 0 2) eq_refl).
  - exact (proj1 (proj2 (add_node_description
                           (sibling_heap "- description: x") 0 2)) eq_refl).
Defined.

(** *** The builder returns

    [add_node] answers or raises; with the fuel [load_features_from_yaml]
    gives it, [build] does so too, and leaves no node unread. *)

Lemma settled_bind {A B : Type} (P : A -> Prop) (Q : B -> Prop)
    (m : outcome A) (f : A -> outcome B) :
  settled P m -> (forall a, P a -> settled Q (f a)) -> settled Q (m ≫= f).
Proof. destruct m; cbn; auto; contradiction. Qed.

Lemma deref_settled {A : Type} (Q : A -> Prop) (o : option nat)
    (attr : string) (k : nat -> outcome A) :
  (forall i, o = Some i -> settled Q (k i)) -> settled Q (deref o attr k).
Proof. destruct o; cbn; auto. Qed.

Lemma add_node_settled (parent : option nat) (node : nat) (h : heap) :
  settled (fun _ => True) (add_node parent node h).
Proof.
  unfold add_node.
  repeat (match goal with
          | |- context [if ?b then _ else _] => destruct b
          end);
    repeat (apply deref_settled; intros);
    repeat (match goal with
            | |- context [if ?b then _ else _] => destruct b
            end);
    repeat (apply deref_settled; intros); exact I.
Qed.

Lemma build_while_settled (nodes : list nat) :
  forall fuel child_lvl parent h,
    3 * List.length nodes + 1 <= fuel ->
    settled drained (build_while fuel child_lvl parent nodes h).
Proof.
  induction nodes as [|node nodes IH]; intros fuel child_lvl parent h Hfuel.
  - destruct fuel as [|fuel]; [lia|]. reflexivity.
  - cbn [List.length] in Hfuel.
    destruct fuel as [|fuel]; [lia|]. cbn [build_while].
    destruct (capa_level (get h node) =? child_lvl)%Z.
    + eapply settled_bind; [apply add_node_settled|].
      intros h' _. apply IH. lia.
    + destruct (capa_level (get h node) >? child_lvl)%Z.
      * apply deref_settled. intros p _.
        eapply settled_bind with (P := drained).
        -- destruct fuel as [|fuel]; [lia|]. cbn [build].
           destruct fuel as [|fuel]; [lia|]. cbn [build_while].
           rewrite Z.eqb_refl.
           eapply settled_bind; [apply add_node_settled|].
           intros h' _. apply IH. lia.
        -- intros [nodes' h'] Hdrained. unfold drained in Hdrained.
           cbn [fst] in Hdrained. subst nodes'.
           destruct fuel as [|fuel]; [lia|]. reflexivity.
      * apply deref_settled. intros p _.
        eapply settled_bind; [apply add_node_settled|].
        intros h' _. apply IH. lia.
Qed.

Lemma build_settled (parent : option nat) (nodes : list nat) (h : heap) :
  settled drained (build (build_fuel nodes) parent nodes h).
Proof.
  unfold build_fuel. destruct nodes as [|n0 nodes]; [reflexivity|].
  cbn [build List.length Nat.mul Nat.add].
  apply build_while_settled. cbn [List.length]. lia.
Qed.

Lemma load_features_from_yaml_settled (rule_text : string) (b : bool)
    (ed : editor) :
  settled (fun _ => True) (load_features_from_yaml rule_text b ed).
Proof.
  unfold load_features_from_yaml.
  destruct (find rule_text "features:"); [|exact I].
  destruct (seq 0 _) as [|r rule_nodes]; [exact I|].
  eapply settled_bind; [apply build_settled|]. now intros [? ?] _.
Qed.

(** *** What [build] does on a change of depth *)

(** On a line less deep than the current level, [build] moves to the parent
    of the current parent, or stays where it is at the root, and goes on
    from there with the level unchanged. *)
Lemma build_while_drop (fuel : nat) (child_lvl : Z) (p node : nat)
    (nodes : list nat) (h : heap) :
  (capa_level (get h node) < child_lvl)%Z ->
  build_while (S fuel) child_lvl (Some p) (node :: nodes) h
  = let parent := Some (default p (par (get h p))) in
    add_node parent node h ≫= fun h' =>
    build_while fuel child_lvl parent nodes h'.
Proof.
  intros Hlt. cbn [build_while].
  destruct (Z.eqb_spec (capa_level (get h node)) child_lvl); [lia|].
  destruct (Z.gtb_spec (capa_level (get h node)) child_lvl); [lia|].
  cbn [deref]. destruct (par (get h p)); reflexivity.
Qed.

(** With no parent at hand, [add_node] raises whatever the line is. *)
Lemma add_node_none (node : nat) (h : heap) :
  exists attr, add_node None node h = Raise (none_has_no attr).
Proof.
  unfold add_node.
  destruct (startswith _ "description:"); [eexists; reflexivity|].
  destruct (startswith _ "- description:"); eexists; reflexivity.
Qed.

(** On a line deeper than the current level while the current parent has no
    child, [build] raises. *)
Lemma build_while_descend_childless (fuel : nat) (child_lvl : Z)
    (p node : nat) (nodes : list nat) (h : heap) :
  children (get h p) = [] ->
  (capa_level (get h node) > child_lvl)%Z ->
  exists attr,
    build_while (S (S (S fuel))) child_lvl (Some p) (node :: nodes) h
    = Raise (none_has_no attr).
Proof.
  intros Hnone Hgt. cbn [build_while build].
  destruct (Z.eqb_spec (capa_level (get h node)) child_lvl); [lia|].
  destruct (Z.gtb_spec (capa_level (get h node)) child_lvl); [|lia].
  cbn [deref]. unfold child, childCount. rewrite Hnone. cbn [List.length].
  change (Z.of_nat 0 - 1 <? 0)%Z with true. cbn iota.
  rewrite Z.eqb_refl.
  destruct (add_node_none node h) as [attr ->]. now exists attr.
Qed.

(** The description kept from a [- description:] line has lost, with the
    syntax, every leading character of the text that occurs in it; the
    space after [description:] stops the loss in the other syntax. *)
Lemma description_loses_leading_chars (d : string) :
  lstrip_chars "- description:" ("- description: " ++ d)
  = lstrip_chars "- description:" d
  /\ lstrip_chars "description:" ("description: " ++ d) = " " ++ d.
Proof. split; reflexivity. Qed.

(** C10, on the code.  [orphan_child_rule] has a [- description:] line
    first under its root and a deeper line after it: the root has no
    child to descend into, and attaching the deeper line raises. *)
Theorem build_raises_on_orphan_child :
  load_features_from_yaml orphan_child_rule true empty_editor
  = Raise (none_has_no "addChild").
Proof. vm_compute. reflexivity. Qed.

(** C4, on the code.  In [deep_dedent_rule] the last line, at the depth of
    the first [- or:], comes after a line three levels deeper.  It is
    attached to the parent of the current parent (item 2, of level 8),
    which is neither the nearest ancestor of level 6 (item 1) nor the item
    whose children sit at depth 6 (the root, item 0); reloading the rule
    moves the line four columns to the right. *)
Theorem build_ascends_one_level_only :
  exists ed,
    load_features_from_yaml deep_dedent_rule true empty_editor = Ok ed
    /\ map capa_level (items ed) = [0; 6; 8; 10; 12; 6]%Z
    /\ map par (items ed) = [None; Some 0; Some 1; Some 2; Some 3; Some 2]
    /\ ascend_target (items ed) 3 6 = 1
    /\ nearest_holder_at (List.length (items ed)) (items ed) 3 6 = Some 0
    /\ reload deep_dedent_rule = Ok deep_dedent_rule_reloaded.
Proof. eexists. repeat split; vm_compute; reflexivity. Qed.

(** C1, on the code.  Reloading [description_rule] turns its line
    [- description: open file] into [- description: file]; a rule without
    such a line, [plain_rule], reloads to itself. *)
Theorem reload_truncates_description :
  reload description_rule = Ok description_rule_reloaded
  /\ description_rule_reloaded <> description_rule
  /\ reload plain_rule = Ok plain_rule.
Proof.
  split; [vm_compute; reflexivity|].
  split; [|vm_compute; reflexivity].
  vm_compute. discriminate.
Qed.

End BuilderProps.

(** * Facts about the string operations *)

Section StringFacts.
Import PyStr.

Lemma append_nil_r (s : string) : s ++ "" = s.
Proof.
  induction s as [|c s IH]; [reflexivity|].
  change (String c (s ++ "") = String c s). now rewrite IH.
Qed.

Lemma append_nil_l (s : string) : "" ++ s = s.
Proof. reflexivity. Qed.

Lemma append_cons (c : ascii) (a b : string) :
  String c a ++ b = String c (a ++ b).
Proof. reflexivity. Qed.

Lemma length_append (a b : string) :
  String.length (a ++ b) = String.length a + String.length b.
Proof.
  induction a as [|c a IH]; [reflexivity|].
  rewrite append_cons. cbn [String.length]. now rewrite IH.
Qed.

Lemma length_spaces (n : nat) : String.length (spaces n) = n.
Proof. induction n as [|n IH]; [reflexivity|]. cbn. now rewrite IH. Qed.

Lemma all_chars_append (p : ascii -> bool) (a b : string) :
  all_chars p (a ++ b) = all_chars p a && all_chars p b.
Proof.
  induction a as [|c a IH]; [reflexivity|].
  rewrite append_cons. cbn [all_chars]. rewrite IH. now rewrite andb_assoc.
Qed.

Lemma all_chars_spaces (n : nat) : all_chars isspace (spaces n) = true.
Proof.
  induction n as [|n IH]; [reflexivity|].
  cbn [spaces all_chars]. now rewrite IH.
Qed.

Lemma rev_app_append (s acc : string) :
  String.rev_app s acc = String.rev s ++ acc.
Proof.
  unfold String.rev. revert acc.
  induction s as [|c s IH]; intros acc; [reflexivity|].
  cbn [String.rev_app]. rewrite (IH (String c acc)), (IH (String c "")).
  now rewrite append_assoc.
Qed.

Lemma rev_cons (c : ascii) (s : string) :
  String.rev (String c s) = String.rev s ++ String c "".
Proof. unfold String.rev at 1. cbn [String.rev_app]. apply rev_app_append. Qed.

Lemma rev_append (a b : string) :
  String.rev (a ++ b) = String.rev b ++ String.rev a.
Proof.
  induction a as [|c a IH].
  - now rewrite append_nil_r.
  - rewrite append_cons, !rev_cons, IH. now rewrite append_assoc.
Qed.

Lemma rev_involutive (s : string) : String.rev (String.rev s) = s.
Proof.
  induction s as [|c s IH]; [reflexivity|].
  rewrite rev_cons, rev_append, IH. reflexivity.
Qed.

Lemma all_chars_rev (p : ascii -> bool) (s : string) :
  all_chars p (String.rev s) = all_chars p s.
Proof.
  induction s as [|c s IH]; [reflexivity|].
  rewrite rev_cons, all_chars_append, IH. cbn [all_chars].
  rewrite andb_true_r. apply andb_comm.
Qed.

Lemma lstrip_by_empty (p : ascii -> bool) (s : string) :
  is_empty (lstrip_by p s) = all_chars p s.
Proof.
  induction s as [|c s IH]; [reflexivity|].
  cbn [lstrip_by all_chars]. destruct (p c); [exact IH|reflexivity].
Qed.

Lemma rstrip_by_empty (p : ascii -> bool) (s : string) :
  is_empty (rstrip_by p s) = all_chars p s.
Proof.
  induction s as [|c s IH]; [reflexivity|].
  cbn [rstrip_by all_chars]. rewrite <- IH.
  destruct (is_empty (rstrip_by p s)), (p c); reflexivity.
Qed.

Lemma is_empty_true (s : string) : is_empty s = true -> s = "".
Proof. now destruct s. Qed.

Lemma lstrip_by_append (p : ascii -> bool) (a b : string) :
  lstrip_by p (a ++ b)
  = if all_chars p a then lstrip_by p b else lstrip_by p a ++ b.
Proof.
  induction a as [|c a IH]; [reflexivity|].
  rewrite append_cons. cbn [lstrip_by all_chars].
  destruct (p c); [exact IH|reflexivity].
Qed.

Lemma rstrip_by_append (p : ascii -> bool) (a b : string) :
  rstrip_by p (a ++ b)
  = if all_chars p b then rstrip_by p a else a ++ rstrip_by p b.
Proof.
  induction a as [|c a IH].
  - rewrite !append_nil_l. cbn [rstrip_by].
    destruct (all_chars p b) eqn:Hb; [|reflexivity].
    apply is_empty_true. now rewrite rstrip_by_empty.
  - rewrite append_cons. cbn [rstrip_by]. rewrite IH.
    destruct (all_chars p b) eqn:Hb; [reflexivity|].
    assert (He : is_empty (a ++ rstrip_by p b) = false).
    { destruct a; [|reflexivity]. rewrite append_nil_l.
      now rewrite rstrip_by_empty. }
    now rewrite He.
Qed.

(** [rstrip] is [rstrip_by isspace]. *)
Lemma rev_lstrip_rev (p : ascii -> bool) (s : string) :
  String.rev (lstrip_by p (String.rev s)) = rstrip_by p s.
Proof.
  induction s as [|c s IH]; [reflexivity|].
  rewrite rev_cons, lstrip_by_append, all_chars_rev. cbn [rstrip_by].
  destruct (all_chars p s) eqn:Hs.
  - rewrite (is_empty_true (rstrip_by p s))
      by now rewrite rstrip_by_empty.
    cbn [lstrip_by is_empty andb]. destruct (p c); reflexivity.
  - rewrite rstrip_by_empty, Hs. cbn [andb]. rewrite rev_append, IH.
    reflexivity.
Qed.

Lemma rstrip_rstrip_by (s : string) : rstrip s = rstrip_by isspace s.
Proof. apply rev_lstrip_rev. Qed.

Lemma strip_unfold (s : string) :
  strip s = rstrip_by isspace (lstrip_by isspace s).
Proof. unfold strip. now rewrite rstrip_rstrip_by. Qed.

Lemma lstrip_by_idem (p : ascii -> bool) (s : string) :
  lstrip_by p (lstrip_by p s) = lstrip_by p s.
Proof.
  induction s as [|c s IH]; [reflexivity|].
  cbn [lstrip_by]. destruct (p c) eqn:Hc; [exact IH|].
  cbn [lstrip_by]. now rewrite Hc.
Qed.

Lemma rstrip_by_idem (p : ascii -> bool) (s : string) :
  rstrip_by p (rstrip_by p s) = rstrip_by p s.
Proof.
  induction s as [|c s IH]; [reflexivity|].
  cbn [rstrip_by].
  destruct (is_empty (rstrip_by p s) && p c) eqn:He; [reflexivity|].
  cbn [rstrip_by]. rewrite IH. now rewrite He.
Qed.

Lemma lstrip_rstrip_comm (p : ascii -> bool) (s : string) :
  lstrip_by p (rstrip_by p s) = rstrip_by p (lstrip_by p s).
Proof.
  induction s as [|c s IH]; [reflexivity|].
  cbn [rstrip_by lstrip_by]. destruct (p c) eqn:Hc.
  - rewrite andb_true_r.
    destruct (is_empty (rstrip_by p s)) eqn:He.
    + symmetry. apply is_empty_true.
      rewrite rstrip_by_empty, <- lstrip_by_empty, lstrip_by_idem,
        lstrip_by_empty, <- rstrip_by_empty. exact He.
    + cbn [lstrip_by]. now rewrite Hc.
  - rewrite andb_false_r. cbn [lstrip_by rstrip_by]. rewrite Hc.
    now rewrite andb_false_r.
Qed.

Lemma strip_idem (s : string) : strip (strip s) = strip s.
Proof.
  rewrite !strip_unfold.
  rewrite (lstrip_rstrip_comm isspace (lstrip_by isspace s)).
  now rewrite lstrip_by_idem, rstrip_by_idem.
Qed.

Lemma strip_stripped (s : string) : stripped (strip s).
Proof. apply strip_idem. Qed.

Lemma stripped_lstrip (s : string) : stripped s -> lstrip s = s.
Proof.
  unfold stripped, lstrip. intros H. rewrite <- H at 1.
  rewrite strip_unfold, lstrip_rstrip_comm, lstrip_by_idem.
  now rewrite <- strip_unfold.
Qed.

Lemma stripped_rstrip (s : string) : stripped s -> rstrip_by isspace s = s.
Proof.
  unfold stripped. intros H. rewrite <- H at 1.
  rewrite strip_unfold, rstrip_by_idem. now rewrite <- strip_unfold.
Qed.

(** Whitespace around a text does not survive [strip]. *)
Lemma strip_around (a s b : string) :
  all_chars isspace a = true -> all_chars isspace b = true ->
  strip (a ++ s ++ b) = strip s.
Proof.
  intros Ha Hb. rewrite !strip_unfold, lstrip_by_append, Ha.
  rewrite <- !lstrip_rstrip_comm, rstrip_by_append, Hb. reflexivity.
Qed.

End StringFacts.

(** ** Occurrences of a character, [find] and [partition] *)

Section CharFacts.
Import PyStr.

Lemma mem_char_append (c : ascii) (a b : string) :
  mem_char c (a ++ b) = mem_char c a || mem_char c b.
Proof.
  induction a as [|d a IH]; [reflexivity|].
  rewrite append_cons. cbn [mem_char]. rewrite IH. now rewrite orb_assoc.
Qed.

Lemma mem_char_lstrip_by (c : ascii) (p : ascii -> bool) (s : string) :
  mem_char c s = false -> mem_char c (lstrip_by p s) = false.
Proof.
  induction s as [|d s IH]; [reflexivity|]. cbn [mem_char lstrip_by].
  intros [Hd Hs]%orb_false_elim. destruct (p d); [now apply IH|].
  cbn [mem_char]. now rewrite Hd, Hs.
Qed.

Lemma mem_char_rstrip_by (c : ascii) (p : ascii -> bool) (s : string) :
  mem_char c s = false -> mem_char c (rstrip_by p s) = false.
Proof.
  induction s as [|d s IH]; [reflexivity|]. cbn [mem_char rstrip_by].
  intros [Hd Hs]%orb_false_elim.
  destruct (is_empty (rstrip_by p s) && p d); [reflexivity|].
  cbn [mem_char]. now rewrite Hd, IH.
Qed.

Lemma mem_char_strip (c : ascii) (s : string) :
  mem_char c s = false -> mem_char c (strip s) = false.
Proof.
  intros H. rewrite strip_unfold.
  now apply mem_char_rstrip_by, mem_char_lstrip_by.
Qed.

Lemma mem_char_slice_from (c : ascii) (k : nat) (s : string) :
  mem_char c s = false -> mem_char c (slice_from k s) = false.
Proof.
  revert s. induction k as [|k IH]; intros [|d s]; cbn [slice_from]; auto.
  cbn [mem_char]. intros [_ Hs]%orb_false_elim. now apply IH.
Qed.

Lemma slice_to_cons (k : nat) (d : ascii) (s : string) :
  slice_to (S k) (String d s) = String d (slice_to k s).
Proof. reflexivity. Qed.

Lemma slice_to_0 (s : string) : slice_to 0 s = "".
Proof. now destruct s. Qed.

Lemma slice_to_append (a b : string) :
  slice_to (String.length a) (a ++ b) = a.
Proof.
  induction a as [|d a IH]; [apply slice_to_0|].
  rewrite append_cons. cbn [String.length]. rewrite slice_to_cons.
  now rewrite IH.
Qed.

Lemma slice_from_append (a b : string) (k : nat) :
  slice_from (String.length a + k) (a ++ b) = slice_from k b.
Proof.
  induction a as [|d a IH]; [reflexivity|].
  rewrite append_cons. cbn [String.length Nat.add slice_from]. exact IH.
Qed.

Lemma length_slice_from (k : nat) (s : string) :
  String.length (slice_from k s) = String.length s - k.
Proof.
  revert s. induction k as [|k IH]; intros [|d s]; cbn [slice_from];
    try reflexivity.
  cbn [String.length]. rewrite IH. lia.
Qed.

Lemma length_lstrip_by (p : ascii -> bool) (s : string) :
  String.length (lstrip_by p s) <= String.length s.
Proof.
  induction s as [|d s IH]; [reflexivity|]. cbn [lstrip_by].
  destruct (p d); cbn [String.length]; lia.
Qed.

(** [s.find(c)] for a one-character [c]. *)
Lemma find_char_cons (c d : ascii) (s : string) :
  find (String d s) (String c "")
  = if Ascii.eqb c d then Some 0 else S <$> find s (String c "").
Proof.
  unfold find. cbn [String.index String.prefix].
  destruct (ascii_dec c d) as [->|Hne].
  - rewrite Ascii.eqb_refl. now destruct s.
  - apply Ascii.eqb_neq in Hne. rewrite Hne.
    now destruct (String.index 0 (String c "") s).
Qed.

Lemma find_char_absent (c : ascii) (s : string) :
  mem_char c s = false -> find s (String c "") = None.
Proof.
  induction s as [|d s IH]; [reflexivity|]. cbn [mem_char].
  intros [Hd Hs]%orb_false_elim. rewrite find_char_cons, Hd, (IH Hs).
  reflexivity.
Qed.

Lemma find_char_first (c : ascii) (a b : string) :
  mem_char c a = false ->
  find (a ++ String c b) (String c "") = Some (String.length a).
Proof.
  induction a as [|d a IH]; intros Ha.
  - rewrite append_nil_l, find_char_cons. now rewrite Ascii.eqb_refl.
  - cbn [mem_char] in Ha. apply orb_false_elim in Ha as [Hd Ha].
    rewrite append_cons, find_char_cons, Hd, (IH Ha). reflexivity.
Qed.

(** Before the separator found by [find] there is no separator. *)
Lemma find_char_before (c : ascii) (s : string) (i : nat) :
  find s (String c "") = Some i -> mem_char c (slice_to i s) = false.
Proof.
  revert i. induction s as [|d s IH]; intros i; [discriminate|].
  rewrite find_char_cons. destruct (Ascii.eqb c d) eqn:Hd.
  - intros [= <-]. reflexivity.
  - destruct (find s (String c "")) as [j|]; [|discriminate].
    intros [= <-]. rewrite slice_to_cons. cbn [mem_char].
    now rewrite Hd, (IH j).
Qed.

Lemma partition_absent (c : ascii) (s : string) :
  mem_char c s = false -> partition s (String c "") = (s, "", "").
Proof. intros H. unfold partition. now rewrite find_char_absent. Qed.

Lemma partition_first (c : ascii) (a b : string) :
  mem_char c a = false ->
  partition (a ++ String c b) (String c "") = (a, String c "", b).
Proof.
  intros H. unfold partition. rewrite find_char_first by exact H.
  rewrite slice_to_append. cbn [String.length].
  rewrite slice_from_append. reflexivity.
Qed.

(** The parts of a partition hold no character the text does not hold, and
    the first part does not hold the separator. *)
Lemma partition_parts (c x : ascii) (s : string) :
  mem_char c (partition s (String c "")).1.1 = false
  /\ (mem_char x s = false ->
      mem_char x (partition s (String c "")).1.1 = false
      /\ mem_char x (partition s (String c "")).2 = false).
Proof.
  unfold partition. destruct (find s (String c "")) as [i|] eqn:Hf.
  - cbn [fst snd]. split; [now apply find_char_before|].
    intros Hx. split; [|now apply mem_char_slice_from].
    clear Hf. revert i.
    induction s as [|d s IH]; intros [|i]; try reflexivity.
    rewrite slice_to_cons. cbn [mem_char] in *.
    apply orb_false_elim in Hx as [Hd Hs]. now rewrite Hd, IH.
  - cbn [fst snd]. split; [|intros Hx; now split].
    clear -Hf. induction s as [|d s IH]; [reflexivity|].
    rewrite find_char_cons in Hf. cbn [mem_char].
    destruct (Ascii.eqb c d); [discriminate|].
    destruct (find s (String c "")); [discriminate|]. now apply IH.
Qed.

Lemma prefix_append_same (a b : string) : String.prefix a (a ++ b) = true.
Proof.
  induction a as [|d a IH]; [now destruct b|].
  rewrite append_cons. cbn [String.prefix].
  destruct (ascii_dec d d); [exact IH|congruence].
Qed.

Lemma all_chars_not_stripped (s : string) :
  stripped s -> s <> "" -> all_chars isspace s = false.
Proof.
  intros Hs Hne. destruct (all_chars isspace s) eqn:Ha; [|reflexivity].
  destruct Hne. rewrite <- Hs, strip_unfold. apply is_empty_true.
  now rewrite rstrip_by_empty, <- lstrip_by_empty, lstrip_by_idem,
    lstrip_by_empty.
Qed.

(** Stripped texts joined by anything make a stripped text. *)
Lemma stripped_append (a m b : string) :
  stripped a -> a <> "" -> stripped b -> b <> "" -> stripped (a ++ m ++ b).
Proof.
  intros Ha Hane Hb Hbne. unfold stripped. rewrite strip_unfold.
  rewrite lstrip_by_append, (all_chars_not_stripped a Ha Hane).
  fold (lstrip a). rewrite (stripped_lstrip a Ha).
  rewrite <- append_assoc, rstrip_by_append.
  rewrite (all_chars_not_stripped b Hb Hbne).
  now rewrite (stripped_rstrip b Hb).
Qed.

End CharFacts.

(** * More on the Line Classifier *)

Section ClassifierProps.
Import PyStr View.

(** X1.  For a line made of whitespace followed by a text that begins with
    a non-blank character, the level is the number of whitespace characters
    (of any kind, not only spaces), less two when the text begins with
    [description]; so the level of a description line that is indented by
    fewer than two characters is negative. *)
Theorem calc_level_by_indent_counts_indent (ws body : string) (c : ascii)
    (prev_level : Z) :
  all_chars isspace ws = true ->
  isspace c = false ->
  calc_level_by_indent (ws ++ String c body) prev_level
  = (Z.of_nat (String.length ws)
     - (if startswith (String c body) "description" then 2 else 0))%Z.
Proof.
  intros Hws Hc. unfold calc_level_by_indent.
  assert (Hl : lstrip (ws ++ String c body) = String c body).
  { unfold lstrip. rewrite lstrip_by_append, Hws. cbn [lstrip_by].
    now rewrite Hc. }
  assert (Hne : is_empty (strip (ws ++ String c body)) = false).
  { rewrite strip_unfold. fold (lstrip (ws ++ String c body)).
    rewrite Hl, rstrip_by_empty. cbn [all_chars]. now rewrite Hc. }
  rewrite Hne, Hl.
  destruct (startswith (String c body) "description") eqn:Hd.
  - rewrite length_slice_from, length_append.
    assert (2 <= String.length (String c body)).
    { destruct body; [|cbn [String.length]; lia].
      unfold startswith in Hd. cbn [String.prefix] in Hd.
      destruct (ascii_dec _ c); discriminate. }
    lia.
  - rewrite length_append. lia.
Qed.

Lemma calc_level_by_indent_counts_indent_witness :
  calc_level_by_indent "      description: mutex name" 0 = 4%Z
  /\ calc_level_by_indent " description: x" 0 = (-1)%Z.
Proof.
  split.
  - exact (calc_level_by_indent_counts_indent
             "      " "escription: mutex name" "d" 0 eq_refl eq_refl).
  - exact (calc_level_by_indent_counts_indent
             " " "escription: x" "d" 0 eq_refl eq_refl).
Defined.

(** X2.  Whatever the line, the feature, the description and the comment
    returned by the classifier have no surrounding whitespace: stripping
    them again, as [update_preview] does, changes nothing. *)
Theorem parse_feature_for_node_stripped (feature : string) :
  stripped (parse_feature_for_node feature).1.1
  /\ stripped (parse_feature_for_node feature).1.2
  /\ stripped (parse_feature_for_node feature).2.
Proof.
  unfold parse_feature_for_node.
  destruct (if startswith feature "- count" then _ else _) as [[f d] c].
  cbn [fst snd]. repeat split; apply strip_stripped.
Qed.

(** X3.  Outside the counted-feature syntax and whole-line comments, the
    feature returned holds neither [#] nor [=], and the description holds
    no [#]: the first [#] always starts the comment and the first [=]
    before it always starts the description. *)
Theorem parse_feature_for_node_splits_at_first (feature : string) :
  startswith feature "- count" = false ->
  startswith feature "#" = false ->
  mem_char "#" (parse_feature_for_node feature).1.1 = false
  /\ mem_char "=" (parse_feature_for_node feature).1.1 = false
  /\ mem_char "#" (parse_feature_for_node feature).1.2 = false.
Proof.
  intros Hcount Hhash. unfold parse_feature_for_node.
  rewrite Hcount, Hhash. cbn [negb].
  pose proof (partition_parts "#" "#" feature) as [Hno _].
  destruct (partition feature "#") as [[f sep] c]. cbn [fst snd] in Hno.
  pose proof (partition_parts "=" "#" f) as [Heq Hkeep].
  destruct (Hkeep Hno) as [Hf Hd].
  destruct (partition f "=") as [[f' sep'] d]. cbn [fst snd] in *.
  repeat split; now apply mem_char_strip.
Qed.

Lemma parse_feature_for_node_splits_at_first_witness :
  mem_char "#" (parse_feature_for_node "- api: a = b = c # d # e").1.1 = false
  /\ mem_char "=" (parse_feature_for_node "- api: a = b = c # d # e").1.1
     = false
  /\ mem_char "#" (parse_feature_for_node "- api: a = b = c # d # e").1.2
     = false.
Proof.
  exact (parse_feature_for_node_splits_at_first
           "- api: a = b = c # d # e" eq_refl eq_refl).
Defined.

(** X4.  [yaml_to_nodes] makes one item per line, blank lines included, in
    the order of the lines; every item is unlinked and of one of the three
    node types, and a blank line gives an item of type feature with empty
    texts. *)
Theorem yaml_to_nodes_one_item_per_line (s : string) :
  List.length (yaml_to_nodes s) = List.length (splitlines s)
  /\ forall i line,
       splitlines s !! i = Some line ->
       exists it,
         yaml_to_nodes s !! i = Some it
         /\ (feature_col it, description_col it, comment_col it)
            = parse_feature_for_node (strip line)
         /\ capa_level it = calc_level_by_indent line 0
         /\ par it = None /\ children it = []
         /\ capa_type it <= 2
         /\ (is_empty (strip line) = true -> it = blank_item).
Proof.
  unfold yaml_to_nodes. split; [apply length_map|].
  intros i line Hline. rewrite list_lookup_fmap, Hline.
  cbn [fmap option_fmap option_map]. eexists. split; [reflexivity|].
  destruct (parse_feature_for_node (strip line)) as [[f d] c] eqn:Hp.
  cbn [feature_col description_col comment_col capa_level par children
       capa_type].
  repeat split.
  - destruct (startswith_any f _); [cbv; lia|].
    destruct (startswith f "#"); cbv; lia.
  - intros Hblank. apply is_empty_true in Hblank. rewrite Hblank in Hp.
    vm_compute in Hp. injection Hp as <- <- <-.
    unfold calc_level_by_indent. rewrite Hblank. reflexivity.
Qed.

Lemma yaml_to_nodes_one_item_per_line_witness :
  exists it,
    yaml_to_nodes Samples.blank_line_body !! 2 = Some it
    /\ it = blank_item.
Proof.
  destruct (proj2 (yaml_to_nodes_one_item_per_line Samples.blank_line_body)
              2 "" eq_refl) as (it & Hit & _ & _ & _ & _ & _ & Hblank).
  exists it. split; [exact Hit|]. now apply Hblank.
Defined.

End ClassifierProps.

(** * More on the Tree Serializer *)

Section SerializerProps.
Import PyStr View.

Lemma endswith_refl (s : string) : endswith s s = true.
Proof. destruct s; cbn [endswith]; now rewrite String.eqb_refl. Qed.

Lemma endswith_newline_added (display : string) :
  endswith (if endswith display nl then display else display ++ nl) nl = true.
Proof.
  destruct (endswith display nl) eqn:He; [exact He|].
  apply endswith_append, endswith_refl.
Qed.

(** X5.  Whatever the node, the text emitted for it ends with a newline. *)
Theorem parse_node_for_feature_newline_terminated
    (feature description comment : string) (depth : nat) :
  endswith (parse_node_for_feature feature description comment depth) nl
  = true.
Proof. unfold parse_node_for_feature. apply endswith_newline_added. Qed.

(** An emitted text that is already newline-terminated is left alone. *)
Lemma newline_kept (a b : string) :
  (if endswith (a ++ b ++ nl) nl then a ++ b ++ nl else (a ++ b ++ nl) ++ nl)
  = a ++ b ++ nl.
Proof.
  rewrite (endswith_append a (b ++ nl) nl); [reflexivity|].
  apply endswith_append, endswith_refl.
Qed.

(** X6.  A node whose feature text begins with [#] is emitted as that text
    alone, indented and newline-terminated: what its description and
    comment columns hold is not written. *)
Theorem parse_node_for_feature_comment_verbatim
    (feature description comment : string) (depth : nat) :
  startswith feature "#" = true ->
  parse_node_for_feature feature description comment depth
  = spaces (depth * 2 + 4) ++ feature ++ nl.
Proof.
  intros Hhash. unfold parse_node_for_feature. rewrite Hhash.
  apply newline_kept.
Qed.

Lemma parse_node_for_feature_comment_verbatim_witness :
  parse_node_for_feature "# note" "lost" "lost too" 1
  = spaces 6 ++ "# note" ++ nl.
Proof.
  exact (parse_node_for_feature_comment_verbatim "# note" "lost" "lost too"
           1 eq_refl).
Defined.

Lemma startswith_count_others (feature : string) :
  startswith feature "- count" = true ->
  startswith feature "#" = false
  /\ startswith_any feature
       ["- and"; "- or"; "- optional"; "- basic block"; "- not"] = false
  /\ startswith feature "- string" = false.
Proof.
  unfold startswith_any, startswith. cbn [existsb String.prefix].
  destruct feature as [|c1 [|c2 [|c3 f]]]; try discriminate;
    cbn [String.prefix];
    repeat (destruct (ascii_dec _ _) as [<-|?]; try discriminate;
            cbn [String.prefix]);
    intros _; repeat split; reflexivity.
Qed.

(** X7.  A node whose feature text begins with [- count] and does not match
    the serializer's pattern, and that carries a description, is emitted
    as an empty line: its feature, its description and its comment are not
    written. *)
Theorem parse_node_for_feature_count_unmatched_lost
    (feature description comment : string) (depth : nat) :
  startswith feature "- count" = true ->
  Re.search count_re feature = None ->
  is_empty description = false ->
  parse_node_for_feature feature description comment depth = nl.
Proof.
  intros Hcount Hnone Hdesc. unfold parse_node_for_feature.
  destruct (startswith_count_others feature Hcount) as (-> & -> & ->).
  rewrite Hdesc, Hcount, Hnone. reflexivity.
Qed.

Lemma parse_node_for_feature_count_unmatched_lost_witness :
  parse_node_for_feature "- count(basic blocks): 3" "loop" "hot" 2 = nl.
Proof.
  exact (parse_node_for_feature_count_unmatched_lost
           "- count(basic blocks): 3" "loop" "hot" 2
           eq_refl eq_refl eq_refl).
Defined.

(** X8.  Whatever the node, the text emitted for it is a lone newline or
    begins with [2 * depth + 4] spaces. *)
Theorem parse_node_for_feature_indented
    (feature description comment : string) (depth : nat) :
  parse_node_for_feature feature description comment depth = nl
  \/ startswith (parse_node_for_feature feature description comment depth)
                (spaces (depth * 2 + 4)) = true.
Proof.
  unfold parse_node_for_feature, startswith.
  set (n := depth * 2 + 4).
  repeat match goal with
         | |- context [if ?b then _ else _] =>
             lazymatch b with
             | endswith _ _ => fail
             | _ => destruct b
             end
         | |- context [match ?o with Some _ => _ | None => _ end] =>
             destruct o as [[|? [|? [|? [|? ?]]]]|]
         end;
    try (left; reflexivity);
    right; rewrite ?append_assoc;
    match goal with
    | |- context [endswith ?d nl] => destruct (endswith d nl)
    end;
    rewrite ?append_assoc; apply prefix_append_same.
Qed.

End SerializerProps.

(** * The classifier reads back what the serializer writes *)

Section LineRoundTrip.
Import PyStr View.

Lemma mem_char_suffix (c : ascii) (a t : string) :
  mem_char c t = true -> mem_char c (a ++ t) = true.
Proof. intros H. rewrite mem_char_append, H. apply orb_true_r. Qed.

(** A successful match hands a suffix of the text to what follows. *)
Lemma star_suffix {R : Type} (cls : ascii -> bool) (s : string)
    (k : string -> option R) (res : R) :
  Re.star cls s k = Some res -> exists a t, s = a ++ t /\ k t = Some res.
Proof.
  induction s as [|c s IH]; cbn [Re.star].
  - intros H. now exists "", "".
  - destruct (cls c).
    + destruct (Re.star cls s k) as [r|] eqn:Hs.
      * intros [= ->]. destruct (IH eq_refl) as (a & t & -> & Hk).
        now exists (String c a), t.
      * intros H. now exists "", (String c s).
    + intros H. now exists "", (String c s).
Qed.

Lemma rmatch_suffix (r : Re.regex) :
  forall s caps k res,
    Re.rmatch r s caps k = Some res ->
    exists a t caps', s = a ++ t /\ k t caps' = Some res.
Proof.
  induction r as [|c|cls|cls|r IH|r1 IH1 r2 IH2]; intros s caps k res;
    cbn [Re.rmatch].
  - intros H. now exists "", s, caps.
  - destruct s as [|c' s]; [discriminate|].
    destruct (Ascii.eqb c c'); [|discriminate].
    intros H. now exists (String c' ""), s, caps.
  - destruct s as [|c' s]; [discriminate|].
    destruct (cls c'); [|discriminate].
    intros (a & t & -> & Hk)%star_suffix. now exists (String c' a), t, caps.
  - intros (a & t & -> & Hk)%star_suffix. now exists a, t, caps.
  - intros (a & t & caps' & -> & Hk)%IH. eauto.
  - intros (a & t & caps' & -> & Hk)%IH1.
    apply IH2 in Hk as (a' & t' & caps'' & -> & Hk).
    exists (a ++ a'), t', caps''. now rewrite append_assoc.
Qed.

Lemma rmatch_needs_char (c : ascii) (r : Re.regex) :
  Re.needs_char c r = true ->
  forall s caps k res,
    Re.rmatch r s caps k = Some res -> mem_char c s = true.
Proof.
  induction r as [|c'|cls|cls|r IH|r1 IH1 r2 IH2]; cbn [Re.needs_char];
    try discriminate; intros Hn s caps k res; cbn [Re.rmatch].
  - destruct s as [|c'' s]; [discriminate|].
    destruct (Ascii.eqb c' c'') eqn:He; [|discriminate].
    apply Ascii.eqb_eq in Hn, He. subst. intros _. cbn [mem_char].
    now rewrite Ascii.eqb_refl.
  - now apply IH.
  - apply orb_true_iff in Hn as [Hn|Hn]; [now apply IH1|].
    intros (a & t & caps' & -> & Hk)%rmatch_suffix.
    apply mem_char_suffix. eapply IH2; eauto.
Qed.

Lemma search_needs_char (c : ascii) (r : Re.regex) (s : string) :
  Re.needs_char c r = true -> mem_char c s = false -> Re.search r s = None.
Proof.
  intros Hn. induction s as [|d s IH]; intros Hs; cbn [Re.search].
  - destruct (Re.rmatch r "" _ _) eqn:Hm; [|reflexivity].
    apply (rmatch_needs_char c r Hn) in Hm. congruence.
  - destruct (Re.rmatch r (String d s) _ _) eqn:Hm.
    + apply (rmatch_needs_char c r Hn) in Hm. congruence.
    + apply IH. cbn [mem_char] in Hs. now apply orb_false_elim in Hs.
Qed.

Lemma parse_feature_for_node_count_needs_equals_aux (line : string) :
  startswith line "- count" = true ->
  mem_char "=" (partition line "#").1.1 = false ->
  parse_feature_for_node line
  = (strip (partition line "#").1.1, "", strip (partition line "#").2).
Proof.
  intros Hcount Heq. unfold parse_feature_for_node. rewrite Hcount.
  destruct (partition line "#") as [[feature sep] comment].
  cbn [fst snd] in *.
  now rewrite (search_needs_char "=" count_description_re feature eq_refl Heq).
Qed.

(** X9.  On a [- count] line with no [=] before its first [#], the
    classifier finds no description: the feature is the text before the
    [#] and the comment the text after it. *)
Theorem parse_feature_for_node_count_needs_equals (line : string) :
  startswith line "- count" = true ->
  mem_char "=" (partition line "#").1.1 = false ->
  parse_feature_for_node line
  = (strip (partition line "#").1.1, "", strip (partition line "#").2).
Proof. apply parse_feature_for_node_count_needs_equals_aux. Qed.

Lemma parse_feature_for_node_count_needs_equals_witness :
  parse_feature_for_node "- count(basic blocks): 3 # a = b"
  = ("- count(basic blocks): 3", "", "a = b").
Proof.
  exact (parse_feature_for_node_count_needs_equals
           "- count(basic blocks): 3 # a = b" eq_refl eq_refl).
Defined.

Lemma strip_indented (a s : string) :
  all_chars isspace a = true -> strip (a ++ s) = strip s.
Proof.
  intros Ha. rewrite <- (append_nil_r s) at 1.
  now rewrite strip_around.
Qed.

Lemma strip_trailing (s b : string) :
  all_chars isspace b = true -> strip (s ++ b) = strip s.
Proof. intros Hb. now rewrite <- (append_nil_l (s ++ b)), strip_around. Qed.

(** Stripping the serializer's output strips what it displays. *)
Lemma strip_newline_added (display : string) :
  strip (if endswith display nl then display else display ++ nl)
  = strip display.
Proof.
  destruct (endswith display nl); [reflexivity|].
  now apply strip_trailing.
Qed.

Lemma stripped_first_char (f : string) (c : ascii) :
  stripped f -> f <> "" -> mem_char c f = false ->
  startswith f (String c "") = false.
Proof.
  intros _ Hne Hc. destruct f as [|d f]; [congruence|].
  unfold startswith. cbn [String.prefix mem_char] in *.
  apply orb_false_elim in Hc as [Hd _]. apply Ascii.eqb_neq in Hd.
  destruct (ascii_dec c d); [congruence|reflexivity].
Qed.

Ltac peel f n :=
  lazymatch n with
  | O => idtac
  | S ?m => let c := fresh "c" in destruct f as [|c f]; [|peel f m]
  end.

(** A text followed by a blank and a character other than [c] begins with
    [- count] only when the text does. *)
Lemma startswith_count_append (f r : string) (x : ascii) :
  x <> "c"%char ->
  startswith (f ++ String " " (String x r)) "- count"
  = startswith f "- count".
Proof.
  intros Hx. unfold startswith.
  peel f 7; rewrite ?append_cons, ?append_nil_l; cbn [String.prefix];
    repeat (match goal with
            | |- context [ascii_dec ?a ?b] =>
                destruct (ascii_dec a b) as [E|E];
                [first [discriminate E | subst b | clear E]|]
            end; cbn [String.prefix]);
    try reflexivity; try congruence.
  destruct f; reflexivity.
Qed.

Lemma startswith_hash_append (f r : string) :
  f <> "" -> startswith (f ++ r) "#" = startswith f "#".
Proof.
  intros Hne. destruct f as [|d f]; [congruence|].
  unfold startswith. rewrite append_cons. cbn [String.prefix].
  destruct (ascii_dec _ _); [|reflexivity]. now destruct f, r.
Qed.

Lemma prefix_append_l (p a b : string) :
  String.prefix p a = true -> String.prefix p (a ++ b) = true.
Proof.
  revert a. induction p as [|c p IH]; intros [|d a]; cbn [String.prefix];
    try discriminate.
  - intros _. now destruct b.
  - intros _. reflexivity.
  - rewrite append_cons. cbn [String.prefix].
    destruct (ascii_dec c d); [apply IH|discriminate].
Qed.

(** The general syntax reads [feature = description # comment] back. *)
Lemma parse_general_line (f d c : string) :
  stripped f -> f <> "" ->
  mem_char "#" f = false -> mem_char "=" f = false ->
  startswith f "- count" = false ->
  stripped d -> mem_char "#" d = false -> stripped c ->
  parse_feature_for_node (f ++ " = " ++ d ++ " # " ++ c) = (f, d, c)
  /\ parse_feature_for_node (f ++ " = " ++ d) = (f, d, "")
  /\ parse_feature_for_node (f ++ " # " ++ c) = (f, "", c)
  /\ parse_feature_for_node f = (f, "", "").
Proof.
  intros Hf Hne Hfh Hfe Hfc Hd Hdh Hc.
  assert (Hhash : startswith f "#" = false)
    by now apply stripped_first_char.
  assert (Hsf : strip (f ++ " ") = f)
    by (rewrite strip_trailing by reflexivity; exact Hf).
  assert (Hsc : strip (" " ++ c) = c)
    by (rewrite strip_indented by reflexivity; exact Hc).
  assert (Hsd : strip (" " ++ d ++ " ") = d)
    by (rewrite strip_around by reflexivity; exact Hd).
  assert (Hsd' : strip (" " ++ d) = d)
    by (rewrite strip_indented by reflexivity; exact Hd).
  assert (Hcnt : forall x r, x <> "c"%char ->
            startswith (f ++ String " " (String x r)) "- count" = false).
  { intros x r Hx. now rewrite startswith_count_append. }
  assert (Hhsh : forall r, startswith (f ++ r) "#" = false).
  { intros r. now rewrite startswith_hash_append. }
  repeat split; unfold parse_feature_for_node.
  - assert (H1 : startswith (f ++ " = " ++ d ++ " # " ++ c) "- count"
                 = false)
      by exact (Hcnt "="%char (" " ++ d ++ " # " ++ c) ltac:(discriminate)).
    rewrite H1, Hhsh. cbn [negb].
    replace (f ++ " = " ++ d ++ " # " ++ c)
      with ((f ++ " = " ++ d ++ " ") ++ String "#" (" " ++ c))
      by (rewrite !append_assoc; reflexivity).
    rewrite partition_first
      by (rewrite !mem_char_append, Hfh, Hdh; reflexivity).
    replace (f ++ " = " ++ d ++ " ")
      with ((f ++ " ") ++ String "=" (" " ++ d ++ " "))
      by (rewrite !append_assoc; reflexivity).
    rewrite partition_first by (rewrite mem_char_append, Hfe; reflexivity).
    now rewrite Hsf, Hsd, Hsc.
  - assert (H1 : startswith (f ++ " = " ++ d) "- count" = false)
      by exact (Hcnt "="%char (" " ++ d) ltac:(discriminate)).
    rewrite H1, Hhsh. cbn [negb].
    rewrite partition_absent
      by (rewrite !mem_char_append, Hfh, Hdh; reflexivity).
    replace (f ++ " = " ++ d)
      with ((f ++ " ") ++ String "=" (" " ++ d))
      by (rewrite !append_assoc; reflexivity).
    rewrite partition_first by (rewrite mem_char_append, Hfe; reflexivity).
    now rewrite Hsf, Hsd'.
  - assert (H1 : startswith (f ++ " # " ++ c) "- count" = false)
      by exact (Hcnt "#"%char (" " ++ c) ltac:(discriminate)).
    rewrite H1, Hhsh. cbn [negb].
    replace (f ++ " # " ++ c)
      with ((f ++ " ") ++ String "#" (" " ++ c))
      by (rewrite !append_assoc; reflexivity).
    rewrite partition_first by (rewrite mem_char_append, Hfh; reflexivity).
    rewrite partition_absent by (rewrite mem_char_append, Hfe; reflexivity).
    now rewrite Hsf, Hsc.
  - rewrite Hfc, Hhash. cbn [negb].
    rewrite (partition_absent "#" f Hfh), (partition_absent "=" f Hfe).
    now rewrite Hf.
Qed.

(** The counted syntax reads [feature # comment] back when the feature
    holds no [=]. *)
Lemma parse_count_line (f c : string) :
  stripped f -> mem_char "#" f = false -> mem_char "=" f = false ->
  startswith f "- count" = true -> stripped c ->
  parse_feature_for_node (f ++ " # " ++ c) = (f, "", c)
  /\ parse_feature_for_node f = (f, "", "").
Proof.
  intros Hf Hfh Hfe Hfc Hc.
  assert (Hsf : strip (f ++ " ") = f)
    by (rewrite strip_trailing by reflexivity; exact Hf).
  assert (Hsc : strip (" " ++ c) = c)
    by (rewrite strip_indented by reflexivity; exact Hc).
  split.
  - rewrite parse_feature_for_node_count_needs_equals_aux.
    + replace (f ++ " # " ++ c)
        with ((f ++ " ") ++ String "#" (" " ++ c))
        by (rewrite !append_assoc; reflexivity).
      rewrite partition_first
        by (rewrite mem_char_append, Hfh; reflexivity).
      cbn [fst snd]. now rewrite Hsf, Hsc.
    + unfold startswith. now apply prefix_append_l.
    + replace (f ++ " # " ++ c)
        with ((f ++ " ") ++ String "#" (" " ++ c))
        by (rewrite !append_assoc; reflexivity).
      rewrite partition_first
        by (rewrite mem_char_append, Hfh; reflexivity).
      cbn [fst snd]. rewrite mem_char_append, Hfe. reflexivity.
  - rewrite parse_feature_for_node_count_needs_equals_aux;
      rewrite ?(partition_absent "#" f Hfh); cbn [fst snd]; auto.
    now rewrite Hf.
Qed.

(** X10.  A leaf that is no expression, string or counted feature, with a
    description, is written on one line as [feature = description], with
    [ # comment] after it when it has a comment; the classifier reads that
    line back as the same feature, description and comment. *)
Theorem plain_leaf_line_round_trip (f d c : string) (depth : nat) :
  stripped f -> f <> "" ->
  mem_char "#" f = false -> mem_char "=" f = false ->
  startswith f "- count" = false ->
  startswith_any f
    ["- and"; "- or"; "- optional"; "- basic block"; "- not"] = false ->
  startswith f "- string" = false ->
  stripped d -> d <> "" -> mem_char "#" d = false ->
  stripped c ->
  parse_feature_for_node (strip (parse_node_for_feature f d c depth))
  = (f, d, c).
Proof.
  intros Hf Hne Hfh Hfe Hfc Hfx Hfs Hd Hdne Hdh Hc.
  destruct (parse_general_line f d c Hf Hne Hfh Hfe Hfc Hd Hdh Hc)
    as (Hfull & Hnoc & _ & _).
  unfold parse_node_for_feature. rewrite strip_newline_added.
  rewrite (stripped_first_char f "#" Hf Hne Hfh), Hfx, Hfs, Hfc.
  assert (Hde : is_empty d = false) by now destruct d.
  rewrite Hde. cbn [negb].
  destruct c as [|c0 c]; cbn [is_empty negb].
  - rewrite strip_indented by apply all_chars_spaces.
    rewrite (stripped_append f " = " d Hf Hne Hd Hdne). exact Hnoc.
  - rewrite !append_assoc, strip_indented by apply all_chars_spaces.
    replace (f ++ " = " ++ d ++ " # " ++ String c0 c ++ nl)
      with ((f ++ " = " ++ d ++ " # " ++ String c0 c) ++ nl)
      by (rewrite !append_assoc; reflexivity).
    rewrite strip_trailing by reflexivity.
    replace (f ++ " = " ++ d ++ " # " ++ String c0 c)
      with (f ++ (" = " ++ d ++ " # ") ++ String c0 c)
      by (rewrite !append_assoc; reflexivity).
    rewrite (stripped_append f _ (String c0 c) Hf Hne Hc)
      by discriminate.
    rewrite !append_assoc. exact Hfull.
Qed.

Lemma plain_leaf_line_round_trip_witness :
  parse_feature_for_node
    (strip (parse_node_for_feature "- api: CreateMutexA" "ANSI = wide"
              "see # docs" 3))
  = ("- api: CreateMutexA", "ANSI = wide", "see # docs").
Proof.
  apply plain_leaf_line_round_trip;
    first [discriminate | vm_compute; reflexivity].
Defined.

(** X11.  A node without description whose feature text is not a
    whole-line comment and holds neither [#] nor [=] is written as its
    feature, with [ # comment] after it when it has a comment; the
    classifier reads that line back as the same feature and comment, with
    an empty description, whatever the kind of the node. *)
Theorem bare_node_line_round_trip (f c : string) (depth : nat) :
  stripped f -> f <> "" ->
  mem_char "#" f = false -> mem_char "=" f = false ->
  stripped c ->
  parse_feature_for_node (strip (parse_node_for_feature f "" c depth))
  = (f, "", c).
Proof.
  intros Hf Hne Hfh Hfe Hc.
  assert (Hread : parse_feature_for_node (f ++ " # " ++ c) = (f, "", c)
                  /\ parse_feature_for_node f = (f, "", "")).
  { destruct (startswith f "- count") eqn:Hfc.
    - now apply parse_count_line.
    - destruct (parse_general_line f "" c Hf Hne Hfh Hfe Hfc eq_refl
                  eq_refl Hc) as (_ & _ & H3 & H4). now split. }
  destruct Hread as [Hfull Hbare].
  unfold parse_node_for_feature. rewrite strip_newline_added.
  rewrite (stripped_first_char f "#" Hf Hne Hfh). cbn [is_empty negb].
  destruct c as [|c0 c]; cbn [is_empty negb].
  - rewrite strip_indented by apply all_chars_spaces.
    rewrite Hf. exact Hbare.
  - rewrite !append_assoc, strip_indented by apply all_chars_spaces.
    replace (f ++ " # " ++ String c0 c ++ nl)
      with ((f ++ " # " ++ String c0 c) ++ nl)
      by (rewrite !append_assoc; reflexivity).
    rewrite strip_trailing by reflexivity.
    rewrite (stripped_append f " # " (String c0 c) Hf Hne Hc)
      by discriminate.
    exact Hfull.
Qed.

Lemma bare_node_line_round_trip_witness :
  parse_feature_for_node
    (strip (parse_node_for_feature "- count(basic blocks): 3" "" "hot" 0))
  = ("- count(basic blocks): 3", "", "hot").
Proof.
  apply bare_node_line_round_trip;
    first [discriminate | vm_compute; reflexivity].
Defined.

End LineRoundTrip.

(** * More on overlap detection *)

Section DetectMore.
Import PyStr Detect.
Context {Feature : Type} `{EqDecision Feature}.
Abbreviation Stmt' := (Statement Feature).

Lemma filter_length_mono {A : Type} (P Q : A -> Prop)
    `{forall x, Decision (P x)} `{forall x, Decision (Q x)} (l : list A) :
  (forall x, P x -> Q x) ->
  List.length (filter P l) <= List.length (filter Q l).
Proof.
  intros HPQ. induction l as [|x l IH]; [reflexivity|].
  rewrite !filter_cons. destruct (decide (P x)) as [HP|HP].
  - destruct (decide (Q x)) as [_|HQ]; [cbn; lia|]. destruct HQ; auto.
  - destruct (decide (Q x)); cbn; lia.
Qed.

(** X12.  In a result, the rules reported are candidates, in the order of
    the rule set; there are no more of them than rules counted, and no more
    rules counted than candidates; a new rule without any feature is
    reported to overlap nothing. *)
Theorem find_overlapping_rules_report_bounds (w : world Feature)
    (new_rule_path : string) (rules_path : list string)
    (tr : list event) (new_rule_features : list Feature)
    (ruleset : list (string * Stmt')) :
  endswith new_rule_path ".yml" = true ->
  get_features w new_rule_path = (tr, Ok new_rule_features) ->
  w_get_rules w rules_path = inr ruleset ->
  exists tr' res,
    find_overlapping_rules w new_rule_path rules_path = (tr', Ok res)
    /\ overlapping_rules res `sublist_of` ruleset.*1
    /\ List.length (overlapping_rules res) <= count res
    /\ count res <= List.length ruleset
    /\ (new_rule_features = [] -> overlapping_rules res = []).
Proof.
  intros Hyml Hnew Hrules. unfold find_overlapping_rules.
  rewrite Hyml, Hnew, Hrules. cbn [negb]. rewrite check_rule_fold.
  eexists _, _. split; [reflexivity|]. cbn [count overlapping_rules].
  rewrite app_nil_l. repeat split.
  - apply fmap_sublist, sublist_filter.
  - rewrite length_fmap. apply filter_length_mono.
    intros [name st] HE Hnil. cbn [snd] in *. rewrite Hnil in HE.
    apply Exists_exists in HE as (f & _ & Hf). inversion Hf.
  - cbn [Nat.add]. apply length_filter.
  - intros ->. clear Hrules. induction ruleset as [|it rs IH]; [reflexivity|].
    rewrite filter_cons. destruct (decide _) as [HE|_]; [|exact IH].
    inversion HE.
Qed.

(** One candidate is reported exactly when it shares a feature with the
    new rule. *)
Lemma check_rule_reports (new_rule_features : list Feature)
    (name : string) (st : Stmt') :
  (check_rule new_rule_features ([], 0) (name, st)).1 = [name]
  <-> Exists (fun f => f ∈ get_child_features st) new_rule_features.
Proof.
  unfold check_rule.
  destruct (get_child_features st) as [|f0 fs] eqn:Hst;
    cbn [List.length Nat.eqb fst].
  - split; [discriminate|].
    intros (f & _ & Hf)%Exists_exists. inversion Hf.
  - destruct (any _) eqn:Hany; cbn [fst].
    + split; [|reflexivity]. intros _. now apply any_contains.
    + split; [discriminate|]. intros HE%any_contains. congruence.
Qed.

(** X13.  The overlap test is symmetric: of two rules, the first is
    reported as overlapping when the second is the new rule exactly when
    the second is reported when the first is the new rule. *)
Theorem check_rule_symmetric (a b : Stmt') (name_a name_b : string) :
  (check_rule (get_child_features a) ([], 0) (name_b, b)).1 = [name_b]
  <-> (check_rule (get_child_features b) ([], 0) (name_a, a)).1 = [name_a].
Proof.
  rewrite !check_rule_reports, !Exists_exists.
  split; intros (f & H1 & H2); eauto.
Qed.

(** X14.  When the new rule cannot be loaded the whole operation stops
    before the rule set is read: a failure to open the file is raised as it
    is, a failure to read or to parse it as a [Warning] that names the path
    and the cause. *)
Theorem find_overlapping_rules_new_rule_failure (w : world Feature)
    (new_rule_path : string) (rules_path : list string) :
  endswith new_rule_path ".yml" = true ->
  (forall e,
     w_open w new_rule_path = inl e ->
     find_overlapping_rules w new_rule_path rules_path
     = ([EvOpen new_rule_path], Raise e))
  /\ (forall e content,
        w_open w new_rule_path = inr (inl e)
        \/ (w_open w new_rule_path = inr (inr content)
            /\ w_from_yaml w content = inl e) ->
        find_overlapping_rules w new_rule_path rules_path
        = ([EvOpen new_rule_path],
           Raise (Exn "Warning"
                    ("Error: " ++ new_rule_path ++ " " ++ str_type e ++ " "
                     ++ str_exn e)))).
Proof.
  intros Hyml. unfold find_overlapping_rules, get_features. rewrite Hyml.
  cbn [negb]. split.
  - intros e ->. reflexivity.
  - intros e content [->|[-> ->]]; reflexivity.
Qed.

End DetectMore.

Section DetectMoreWitnesses.
Import PyStr Detect.

Lemma find_overlapping_rules_report_bounds_witness :
  exists tr' res,
    find_overlapping_rules Samples.sample_world "new.yml" ["rules"]
    = (tr', Ok res)
    /\ overlapping_rules res `sublist_of` ["X"; "match-any"; "Y"]
    /\ List.length (overlapping_rules res) <= count res <= 3.
Proof.
  destruct (find_overlapping_rules_report_bounds Samples.sample_world
              "new.yml" ["rules"] [EvOpen "new.yml"]
              (get_child_features Samples.new_rule) Samples.candidates
              eq_refl eq_refl eq_refl)
    as (tr' & res & Hrun & Hsub & Hle & Hcount & _).
  exists tr', res. repeat split; assumption.
Defined.

Lemma find_overlapping_rules_new_rule_failure_witness :
  find_overlapping_rules Samples.broken_world "new.yml" ["rules"]
  = ([EvOpen "new.yml"],
     Raise (Exn "Warning"
              "Error: new.yml <class 'capa.rules.InvalidRule'> no features")).
Proof.
  exact (proj2 (find_overlapping_rules_new_rule_failure Samples.broken_world
                  "new.yml" ["rules"] eq_refl)
           (Exn "capa.rules.InvalidRule" "no features") "new.yml"
           (or_intror (conj eq_refl eq_refl))).
Defined.

End DetectMoreWitnesses.

(** * More on the Tree Builder and on the editor *)

Section EditorProps.
Import PyStr View.

(** X15.  A rule text without the [features:] marker, or with nothing but
    whitespace after it, gives an empty editor: no item, no root; the
    preview keeps the text it had, even when the caller asked for it to be
    updated. *)
Theorem load_features_from_yaml_without_body (rule_text : string)
    (update_preview : bool) (ed : editor) :
  (find rule_text "features:" = None
   \/ exists i, find rule_text "features:" = Some i
                /\ is_empty
                     (strip (slice_from (i + String.length "features:")
                               rule_text)) = true) ->
  load_features_from_yaml rule_text update_preview ed
  = Ok (Editor [] [] None (preview ed)).
Proof.
  unfold load_features_from_yaml.
  intros [->|(i & -> & Hblank)]; [reflexivity|].
  apply is_empty_true in Hblank. now rewrite Hblank.
Qed.

Lemma load_features_from_yaml_without_body_witness :
  load_features_from_yaml "rule:  meta:" true (Editor [] [] None "old")
  = Ok (Editor [] [] None "old")
  /\ load_features_from_yaml ("  features:  " ++ nl) true
       (Editor [] [] None "old")
     = Ok (Editor [] [] None "old").
Proof.
  split.
  - apply load_features_from_yaml_without_body. left. reflexivity.
  - apply load_features_from_yaml_without_body. right. exists 2.
    split; reflexivity.
Defined.

Lemma same_lines_refl (h : heap) : same_lines h h.
Proof. split; [reflexivity|]. intros i. repeat split. Qed.

Lemma same_lines_trans (h1 h2 h3 : heap) :
  same_lines h1 h2 -> same_lines h2 h3 -> same_lines h1 h3.
Proof.
  intros [Hl1 H1] [Hl2 H2]. split; [congruence|].
  intros i. destruct (H1 i) as (? & ? & ? & ?), (H2 i) as (? & ? & ? & ?).
  repeat split; congruence.
Qed.

(** Replacing an item by one with the same line keeps the lines. *)
Lemma same_lines_insert (h : heap) (x : nat) (it : item) :
  feature_col it = feature_col (get h x) ->
  comment_col it = comment_col (get h x) ->
  capa_level it = capa_level (get h x) ->
  capa_type it = capa_type (get h x) ->
  same_lines h (<[x := it]> h).
Proof.
  intros Hf Hc Hl Ht. split; [apply length_insert|].
  intros i. unfold get. destruct (decide (x = i)) as [->|Hne].
  - destruct (h !! i) as [o|] eqn:Hi.
    + rewrite list_lookup_insert_eq by (eapply lookup_lt_Some; eauto).
      unfold get in *. rewrite Hi in *. cbn [default] in *. now repeat split.
    + rewrite list_insert_ge by (now apply lookup_ge_None).
      rewrite Hi. now repeat split.
  - rewrite list_lookup_insert_ne by exact Hne. now repeat split.
Qed.

Lemma same_lines_set_description (h : heap) (x : nat) (v : string) :
  same_lines h (set_text h x 1 v).
Proof. unfold set_text. now apply same_lines_insert. Qed.

Lemma same_lines_addChild (h : heap) (p node : nat) :
  same_lines h (addChild h p node).
Proof.
  unfold addChild. destruct (par (get h node)); [apply same_lines_refl|].
  cbv zeta.
  match goal with
  | |- same_lines h (<[p := _]> ?h1) => apply (same_lines_trans h h1)
  end; apply same_lines_insert; reflexivity.
Qed.

Lemma add_node_same_lines (parent : option nat) (node : nat) (h h' : heap) :
  add_node parent node h = Ok h' -> same_lines h h'.
Proof.
  unfold add_node.
  repeat match goal with
         | |- context [if ?b then _ else _] => destruct b
         | |- context [deref ?o _ _] => destruct o; cbn [deref]
         end;
    intros [= <-];
    first [apply same_lines_set_description | apply same_lines_addChild].
Qed.

Lemma build_same_lines (fuel : nat) :
  (forall parent nodes h r,
     build fuel parent nodes h = Ok r -> same_lines h r.2)
  /\ (forall child_lvl parent nodes h r,
        build_while fuel child_lvl parent nodes h = Ok r ->
        same_lines h r.2).
Proof.
  induction fuel as [|fuel [IHb IHw]]; [split; discriminate|].
  split.
  - intros parent [|n0 nodes] h r; cbn [build].
    + intros [= <-]. apply same_lines_refl.
    + apply IHw.
  - intros child_lvl parent [|node nodes] h r; cbn [build_while].
    + intros [= <-]. apply same_lines_refl.
    + destruct (capa_level (get h node) =? child_lvl)%Z.
      * destruct (add_node parent node h) as [h1| |] eqn:Ha;
          cbn [mbind outcome_bind]; try discriminate.
        intros Hw. eapply same_lines_trans;
          [eapply add_node_same_lines; eauto | eapply IHw; eauto].
      * destruct (capa_level (get h node) >? child_lvl)%Z.
        -- destruct parent as [p|]; cbn [deref]; [|discriminate].
           destruct (build fuel _ (node :: nodes) h) as [[ns h1]| |] eqn:Hb;
             cbn [mbind outcome_bind]; try discriminate.
           intros Hw. eapply same_lines_trans;
             [apply (IHb _ _ _ _ Hb) | eapply IHw; eauto].
        -- destruct parent as [p|]; cbn [deref]; [|discriminate].
           destruct (add_node _ node h) as [h1| |] eqn:Ha;
             cbn [mbind outcome_bind]; try discriminate.
           intros Hw. eapply same_lines_trans;
             [eapply add_node_same_lines; eauto | eapply IHw; eauto].
Qed.



End EditorProps.

(** * More on the preview *)

Section PreviewProps.
Import PyStr View.

Lemma fold_left_append_acc {A : Type} (g : A -> string) (l : list A)
    (acc : string) :
  fold_left (fun acc o => acc ++ g o) l acc
  = acc ++ fold_left (fun acc o => acc ++ g o) l "".
Proof.
  revert acc. induction l as [|o l IH]; intros acc; cbn [fold_left].
  - now rewrite append_nil_r.
  - rewrite (IH (acc ++ g o)), (IH ("" ++ g o)), append_nil_l.
    now rewrite append_assoc.
Qed.

Lemma prefix_nil (s : string) : String.prefix "" s = true.
Proof. now destruct s. Qed.

(** Whether [p] begins a text is decided by the first characters of the
    text. *)
Lemma prefix_slice (p : string) :
  forall k s t,
    String.length p <= k -> k <= String.length s ->
    String.prefix p (slice_to k s ++ t) = String.prefix p s.
Proof.
  induction p as [|a p IH]; intros k s t Hk Hs.
  - now rewrite !prefix_nil.
  - cbn [String.length] in Hk. destruct k as [|k]; [lia|].
    destruct s as [|b s]; [cbn [String.length] in Hs; lia|].
    rewrite slice_to_cons, append_cons. cbn [String.prefix].
    destruct (ascii_dec a b); [|reflexivity].
    apply IH; cbn [String.length] in *; lia.
Qed.

Lemma prefix_length (p s : string) :
  String.prefix p s = true -> String.length p <= String.length s.
Proof.
  revert s. induction p as [|a p IH]; intros [|b s]; cbn [String.prefix];
    try discriminate; cbn [String.length]; try lia.
  destruct (ascii_dec a b); [|discriminate].
  intros H%IH. lia.
Qed.

Lemma index_0_cons (p : string) (c : ascii) (s : string) :
  String.index 0 p (String c s)
  = if String.prefix p (String c s) then Some 0
    else S <$> String.index 0 p s.
Proof.
  cbn [String.index]. destruct (String.prefix p (String c s)); [reflexivity|].
  now destruct (String.index 0 p s).
Qed.

Lemma index_bound (p s : string) (i : nat) :
  String.index 0 p s = Some i -> i + String.length p <= String.length s.
Proof.
  revert i. induction s as [|c s IH]; intros i.
  - cbn [String.index]. destruct p; [|discriminate]. intros [= <-].
    reflexivity.
  - rewrite index_0_cons.
    destruct (String.prefix p (String c s)) eqn:Hp.
    + intros [= <-]. now apply prefix_length.
    + destruct (String.index 0 p s) as [j|]; [|discriminate].
      intros [= <-]. specialize (IH j eq_refl). cbn [String.length]. lia.
Qed.

(** The first occurrence of [p] stays where it is when what follows it is
    replaced. *)
Lemma index_keep (p s t : string) (i : nat) :
  String.index 0 p s = Some i ->
  String.index 0 p (slice_to (i + String.length p) s ++ t) = Some i.
Proof.
  revert i. induction s as [|c s IH]; intros i.
  - cbn [String.index]. destruct p; [|discriminate]. intros [= <-].
    cbn [Nat.add String.length]. rewrite slice_to_0, append_nil_l.
    destruct t; reflexivity.
  - intros Hi. pose proof (index_bound _ _ _ Hi) as Hb. revert Hi.
    rewrite index_0_cons.
    destruct (String.prefix p (String c s)) eqn:Hp.
    + intros [= <-]. cbn [Nat.add].
      apply prefix_correct in Hp. unfold slice_to. rewrite Hp.
      destruct p as [|a p]; [now destruct t|].
      rewrite append_cons, index_0_cons.
      rewrite <- append_cons, prefix_append_same. reflexivity.
    + destruct (String.index 0 p s) as [j|] eqn:Hj; [|discriminate].
      intros [= <-]. cbn [Nat.add]. rewrite slice_to_cons, append_cons.
      rewrite index_0_cons.
      assert (Hpre : String.prefix p
                       (String c (slice_to (j + String.length p) s ++ t))
                     = String.prefix p (String c s)).
      { apply (prefix_slice p (S (j + String.length p)) (String c s) t);
          cbn [String.length] in *; lia. }
      now rewrite Hpre, Hp, (IH j eq_refl).
Qed.

(** A text in which [c] does not occur cannot run over a [c]. *)
Lemma prefix_before_char (p x y : string) (c : ascii) :
  mem_char c p = false ->
  String.prefix p (x ++ String c y) = true -> String.prefix p x = true.
Proof.
  revert x. induction p as [|a p IH]; intros x Hc;
    [intros _; apply prefix_nil|].
  cbn [mem_char] in Hc. apply orb_false_elim in Hc as [Ha Hp].
  destruct x as [|b x].
  - rewrite append_nil_l. cbn [String.prefix].
    destruct (ascii_dec a c) as [->|_]; [|discriminate].
    now rewrite Ascii.eqb_refl in Ha.
  - rewrite append_cons. cbn [String.prefix].
    destruct (ascii_dec a b); [now apply IH|discriminate].
Qed.

Lemma index_none_append (p a b : string) :
  p <> "" -> String.index 0 p (a ++ b) = None -> String.index 0 p a = None.
Proof.
  intros Hp. induction a as [|c a IH].
  - intros _. destruct p; [congruence|reflexivity].
  - rewrite append_cons, !index_0_cons.
    destruct (String.prefix p (String c (a ++ b))) eqn:Hpre; [discriminate|].
    destruct (String.index 0 p (a ++ b)); [discriminate|]. intros _.
    destruct (String.prefix p (String c a)) eqn:Hpa.
    + apply (prefix_append_l p (String c a) b) in Hpa.
      rewrite append_cons in Hpa. congruence.
    + now rewrite IH.
Qed.

(** Past a text without [p], and a character that is not in [p], the first
    [p] is the first one of what follows. *)
Lemma index_after (p a y : string) (c : ascii) :
  p <> "" -> mem_char c p = false ->
  String.index 0 p a = None ->
  String.index 0 p (a ++ String c y)
  = (fun k => String.length a + 1 + k) <$> String.index 0 p y.
Proof.
  intros Hp Hc. induction a as [|b a IH].
  - intros _. rewrite append_nil_l, index_0_cons.
    destruct (String.prefix p (String c y)) eqn:Hpre.
    + apply (prefix_before_char p "" y c Hc) in Hpre.
      destruct p; [congruence|discriminate].
    + now destruct (String.index 0 p y).
  - rewrite append_cons, !index_0_cons.
    destruct (String.prefix p (String b a)) eqn:Hpa; [discriminate|].
    destruct (String.index 0 p a) eqn:Ha; [discriminate|]. intros _.
    destruct (String.prefix p (String b (a ++ String c y))) eqn:Hpre.
    + rewrite <- append_cons in Hpre.
      apply (prefix_before_char p _ y c Hc) in Hpre. congruence.
    + rewrite (IH eq_refl). now destruct (String.index 0 p y).
Qed.

Lemma rstrip_by_prefix (q : ascii -> bool) (s : string) :
  exists w, s = rstrip_by q s ++ w.
Proof.
  induction s as [|c s [w Hw]]; [now exists ""|]. cbn [rstrip_by].
  destruct (is_empty (rstrip_by q s) && q c).
  - now exists (String c s).
  - exists w. rewrite append_cons. now rewrite <- Hw.
Qed.

(** The header [update_preview] keeps or makes. *)
Lemma update_preview_text (ed : editor) :
  preview (update_preview ed)
  = match find (preview ed) "features:" with
    | Some i =>
        slice_to (i + String.length "features:") (preview ed) ++ nl
    | None => rstrip (preview ed) ++ nl ++ "  features:" ++ nl
    end ++ preview_body ed.
Proof.
  unfold update_preview, preview_body. cbn [preview].
  apply fold_left_append_acc.
Qed.

(** Where the marker is in the text [update_preview] writes. *)
Lemma update_preview_marker (ed : editor) :
  exists j,
    find (preview (update_preview ed)) "features:" = Some j
    /\ slice_to (j + String.length "features:") (preview (update_preview ed))
         ++ nl ++ preview_body ed
       = preview (update_preview ed)
    /\ match find (preview ed) "features:" with
       | Some i => j = i
       | None => j = String.length (rstrip (preview ed)) + 3
       end.
Proof.
  rewrite update_preview_text.
  destruct (find (preview ed) "features:") as [i|] eqn:Hfind.
  - exists i. unfold find in *.
    rewrite append_assoc, (index_keep _ _ _ _ Hfind).
    split; [reflexivity|]. split; [|reflexivity].
    pose proof (index_bound _ _ _ Hfind) as Hb.
    set (hd := slice_to (i + String.length "features:") (preview ed)).
    assert (Hlen : String.length hd = i + String.length "features:").
    { unfold hd, slice_to. clearbody hd. clear hd.
      revert Hb. generalize (i + String.length "features:").
      generalize (preview ed). clear.
      induction s as [|c s IH]; intros [|n] Hn; cbn [String.length] in *;
        try reflexivity; try lia.
      cbn [substring String.length]. rewrite IH by lia. reflexivity. }
    rewrite <- Hlen, slice_to_append. reflexivity.
  - set (r := rstrip (preview ed)).
    assert (Hr : String.index 0 "features:" r = None).
    { destruct (rstrip_by_prefix isspace (preview ed)) as [w Hw].
      unfold r. rewrite rstrip_rstrip_by.
      apply (index_none_append _ _ w); [discriminate|].
      now rewrite <- Hw. }
    exists (String.length r + 3). unfold find.
    replace ((r ++ nl ++ "  features:" ++ nl) ++ preview_body ed)
      with (r ++ String LF ("  features:" ++ nl ++ preview_body ed))
      by (rewrite !append_assoc; reflexivity).
    rewrite (index_after "features:" r _ LF ltac:(discriminate) eq_refl Hr).
    assert (Hin : String.index 0 "features:"
                    ("  features:" ++ nl ++ preview_body ed) = Some 2).
    { change ("  features:" ++ nl ++ preview_body ed)
        with (String " " (String " "
                ("features:" ++ nl ++ preview_body ed))).
      rewrite 2 index_0_cons. cbn [String.prefix].
      destruct (ascii_dec "f" " ") as [E|_]; [discriminate E|].
      cbn [fmap option_fmap option_map].
      destruct (nl ++ preview_body ed) eqn:Hrest; [discriminate|].
      change ("features:" ++ String a s)
        with (String "f" ("eatures:" ++ String a s)).
      rewrite index_0_cons.
      change (String "f" ("eatures:" ++ String a s))
        with ("features:" ++ String a s).
      now rewrite prefix_append_same. }
    rewrite Hin. cbn [fmap option_fmap option_map].
    split; [f_equal; lia|]. split; [|lia].
    replace (String.length r + 3 + String.length "features:")
      with (String.length (r ++ nl ++ "  features:"))
      by (rewrite !length_append; change (String.length nl) with 1;
          change (String.length "  features:") with 11;
          change (String.length "features:") with 9; lia).
    replace (r ++ String LF ("  features:" ++ nl ++ preview_body ed))
      with ((r ++ nl ++ "  features:") ++ nl ++ preview_body ed)
      by (rewrite !append_assoc; reflexivity).
    now rewrite slice_to_append.
Qed.

Lemma preview_body_update_preview (ed : editor) :
  preview_body (update_preview ed) = preview_body ed.
Proof. reflexivity. Qed.

(** X17.  Regenerating the preview twice gives what regenerating it once
    gives, whether or not the text had a [features:] marker to begin
    with. *)
Theorem update_preview_idempotent (ed : editor) :
  update_preview (update_preview ed) = update_preview ed.
Proof.
  assert (Htext : preview (update_preview (update_preview ed))
                  = preview (update_preview ed)).
  { destruct (update_preview_marker ed) as (j & Hj & Hsame & _).
    rewrite (update_preview_text (update_preview ed)), Hj.
    rewrite preview_body_update_preview, append_assoc. exact Hsame. }
  unfold update_preview at 1. fold (preview_body (update_preview ed)).
  revert Htext. unfold update_preview at 1. cbn [preview items top_level root].
  intros ->. reflexivity.
Qed.



End PreviewProps.

(** * The tree the builder makes *)

Section TreeProps.
Import PyStr View.
#[local] Open Scope list_scope.

Lemma tree_Forall_ind (P : tree -> Prop) :
  (forall i ks, Forall P ks -> P (T i ks)) -> forall t, P t.
Proof.
  intros HT. fix IH 1. intros [i ks]. apply HT.
  induction ks as [|k ks IHks]; constructor; [apply IH|exact IHks].
Qed.

Lemma rep_inv (h : heap) (pr : option nat) (i : nat) (ks : list tree) :
  rep h pr (T i ks) ->
  par (get h i) = pr /\ children (get h i) = map tid ks
  /\ Forall (rep h (Some i)) ks.
Proof. intros H. inversion H; subst. auto. Qed.

Lemma flat_map_elem {A B : Type} (f : A -> list B) (l : list A) (y : B) :
  y ∈ flat_map f l <-> exists x, x ∈ l /\ y ∈ f x.
Proof.
  rewrite list_elem_of_In, in_flat_map. split.
  - intros (x & Hx & Hy). exists x. now rewrite !list_elem_of_In.
  - intros (x & Hx & Hy). exists x. now rewrite <- !list_elem_of_In.
Qed.

Lemma tid_in_flatten (t : tree) : tid t ∈ flatten t.
Proof. destruct t. cbn. apply list_elem_of_here. Qed.

(** A heap that agrees with [h] on the items of a tree holds that tree. *)
Lemma rep_ext (h h' : heap) (t : tree) :
  forall pr,
    rep h pr t ->
    (forall x, x ∈ flatten t ->
       par (get h' x) = par (get h x)
       /\ children (get h' x) = children (get h x)) ->
    rep h' pr t.
Proof.
  induction t as [i ks IH] using tree_Forall_ind. intros pr Hrep Hsame.
  apply rep_inv in Hrep as (Hp & Hc & Hks).
  destruct (Hsame i (tid_in_flatten (T i ks))) as [Hp' Hc'].
  constructor; [congruence|congruence|].
  rewrite Forall_forall in *. intros k Hk.
  apply (IH k Hk); [now apply Hks|].
  intros x Hx. apply Hsame. cbn [flatten]. apply list_elem_of_further.
  apply flat_map_elem. eauto.
Qed.

Lemma on_last_snoc {A : Type} (f : A -> A) (l : list A) (x : A) :
  on_last f (l ++ [x]) = l ++ [f x].
Proof.
  induction l as [|y l IH]; [reflexivity|].
  cbn [app on_last]. rewrite IH. now destruct l.
Qed.

Lemma last_snoc_inv {A : Type} (l : list A) (x : A) :
  last l = Some x -> exists l', l = l' ++ [x].
Proof.
  destruct l as [|y l] using rev_ind; [discriminate|].
  rewrite last_snoc. intros [= ->]. eauto.
Qed.

Lemma tid_ins (j k : nat) (t : tree) : tid (ins j k t) = tid t.
Proof. now destruct j. Qed.

Lemma sub_at_in_flatten (j : nat) :
  forall t s,
    sub_at j t = Some s -> forall x, x ∈ flatten s -> x ∈ flatten t.
Proof.
  induction j as [|j IH]; intros t s; cbn [sub_at].
  - now intros [= ->].
  - destruct (last (kids t)) as [c|] eqn:Hlast; [|discriminate].
    intros Hs x Hx. destruct t as [i ks]. cbn [kids] in Hlast.
    apply last_snoc_inv in Hlast as [ks' ->].
    cbn [flatten]. apply list_elem_of_further, flat_map_elem.
    exists c. split; [apply elem_of_app; right; apply list_elem_of_here|].
    eapply IH; eauto.
Qed.

(** Adding at the end of the path of last children adds at the end of the
    pre-order. *)
Lemma flatten_ins (j k : nat) :
  forall t s, sub_at j t = Some s -> flatten (ins j k t) = flatten t ++ [k].
Proof.
  induction j as [|j IH]; intros [i ks] s; cbn [sub_at ins tid kids].
  - intros _. cbn [flatten]. rewrite flat_map_app.
    cbn [flat_map flatten]. now rewrite ?app_nil_r.
  - destruct (last ks) as [c|] eqn:Hlast; [|discriminate].
    apply last_snoc_inv in Hlast as [ks' ->]. intros Hs.
    rewrite on_last_snoc. cbn [flatten]. rewrite !flat_map_app.
    cbn [flat_map]. rewrite (IH c s Hs), ?app_nil_r. now rewrite app_assoc.
Qed.

(** The step down the path, taken last. *)
Lemma sub_at_S (j : nat) :
  forall t, sub_at (S j) t = sub_at j t ≫= fun s => last (kids s).
Proof.
  induction j as [|j IH]; intros t.
  - cbn [sub_at mbind option_bind]. now destruct (last (kids t)).
  - change (sub_at (S (S j)) t)
      with (match last (kids t) with
            | Some c => sub_at (S j) c
            | None => None
            end).
    cbn [sub_at]. destruct (last (kids t)) as [c|]; [|reflexivity].
    apply IH.
Qed.

(** The subtrees along the path are held by the heap, each under the one
    before it. *)
Lemma rep_sub_at (h : heap) (j : nat) :
  forall t pr s,
    rep h pr t -> sub_at j t = Some s ->
    rep h (match j with
           | 0 => pr
           | S j' => tid <$> sub_at j' t
           end) s.
Proof.
  induction j as [|j IH]; intros t pr s Hrep.
  - now intros [= ->].
  - rewrite sub_at_S. destruct (sub_at j t) as [q|] eqn:Hq; [|discriminate].
    cbn [mbind option_bind fmap option_fmap option_map].
    intros Hlast. specialize (IH t pr q Hrep Hq).
    destruct q as [i ks]. apply rep_inv in IH as (_ & _ & Hks).
    cbn [kids tid] in *. apply last_snoc_inv in Hlast as [ks' ->].
    rewrite Forall_app, Forall_singleton in Hks. apply Hks.
Qed.

End TreeProps.

Section BuildTree.
Import PyStr View.
#[local] Open Scope list_scope.

Lemma get_insert_eq (h : heap) (x : nat) (it : item) :
  x < List.length h -> get (<[x := it]> h) x = it.
Proof. intros Hx. unfold get. now rewrite list_lookup_insert_eq. Qed.

Lemma get_insert_ne (h : heap) (x y : nat) (it : item) :
  x <> y -> get (<[x := it]> h) y = get h y.
Proof. intros Hne. unfold get. now rewrite list_lookup_insert_ne. Qed.

(** What [addChild] does to the links when the child has no parent yet. *)
Lemma addChild_links (h : heap) (p k : nat) :
  par (get h k) = None -> p <> k ->
  p < List.length h -> k < List.length h ->
  children (get (addChild h p k) p) = children (get h p) ++ [k]
  /\ par (get (addChild h p k) p) = par (get h p)
  /\ par (get (addChild h p k) k) = Some p
  /\ children (get (addChild h p k) k) = children (get h k)
  /\ forall x, x <> p -> x <> k -> get (addChild h p k) x = get h x.
Proof.
  intros Hfree Hne Hp Hk. unfold addChild. rewrite Hfree. cbv zeta.
  repeat split.
  - rewrite get_insert_eq by now rewrite length_insert.
    cbn [children]. now rewrite get_insert_ne.
  - rewrite get_insert_eq by now rewrite length_insert.
    cbn [par]. now rewrite get_insert_ne.
  - rewrite get_insert_ne by exact Hne. now rewrite get_insert_eq.
  - rewrite get_insert_ne by exact Hne. now rewrite get_insert_eq.
  - intros x Hxp Hxk. rewrite !get_insert_ne by congruence. reflexivity.
Qed.

Lemma NoDup_flatten_inv (i : nat) (ks : list tree) :
  NoDup (flatten (T i ks)) ->
  (forall k, k ∈ ks -> (i ∉ flatten k) /\ NoDup (flatten k))
  /\ forall ks' c, ks = ks' ++ [c] ->
       forall x, x ∈ flatten c -> forall k, k ∈ ks' -> x ∉ flatten k.
Proof.
  cbn [flatten]. intros [Hi Hnd]%NoDup_cons. split.
  - intros k Hk. split.
    + intros Hik. apply Hi, flat_map_elem. eauto.
    + clear Hi. induction ks as [|k' ks IH]; [inversion Hk|].
      cbn [flat_map] in Hnd. apply NoDup_app in Hnd as (Hk' & _ & Hks).
      apply elem_of_cons in Hk as [->|Hk]; auto.
  - intros ks' c -> x Hx k Hk Hxk. rewrite flat_map_app in Hnd.
    apply NoDup_app in Hnd as (_ & Hdisj & _).
    apply (Hdisj x); [apply flat_map_elem; eauto|].
    cbn [flat_map]. rewrite app_nil_r. exact Hx.
Qed.

(** The heap after [addChild] holds the tree after [ins]. *)
Lemma rep_ins (h : heap) (k : nat) (j : nat) :
  forall t pr s,
    rep h pr t -> sub_at j t = Some s ->
    NoDup (flatten t) -> k ∉ flatten t ->
    par (get h k) = None -> children (get h k) = [] ->
    tid s < List.length h -> k < List.length h ->
    rep (addChild h (tid s) k) pr (ins j k t).
Proof.
  induction j as [|j IH]; intros [i ks] pr s Hrep Hs Hnd Hk Hfree Hleaf Hp Hlt.
  - cbn [sub_at] in Hs. injection Hs as <-. cbn [tid ins kids] in *.
    assert (Hik : i <> k).
    { intros ->. apply Hk, (tid_in_flatten (T k ks)). }
    destruct (addChild_links h i k Hfree Hik Hp Hlt)
      as (Hc & Hpar & Hkp & Hkc & Hother).
    apply rep_inv in Hrep as (Hpr & Hch & Hks).
    destruct (NoDup_flatten_inv i ks Hnd) as [Hsub _].
    constructor.
    + congruence.
    + rewrite Hc, Hch, map_app. reflexivity.
    + rewrite Forall_app, Forall_singleton. split.
      * rewrite Forall_forall in *. intros c Hcin.
        apply (rep_ext h); [now apply Hks|].
        intros x Hx. rewrite Hother; [auto| |].
        -- intros ->. now apply (Hsub c Hcin).
        -- intros ->. apply Hk. cbn [flatten].
           apply list_elem_of_further, flat_map_elem. eauto.
      * constructor; [exact Hkp|now rewrite Hkc, Hleaf|constructor].
  - cbn [sub_at kids] in Hs.
    destruct (last ks) as [c|] eqn:Hlast; [|discriminate].
    apply last_snoc_inv in Hlast as [ks' ->].
    cbn [ins tid kids]. rewrite on_last_snoc.
    apply rep_inv in Hrep as (Hpr & Hch & Hks).
    destruct (NoDup_flatten_inv i _ Hnd) as [Hsub Hdisj].
    assert (Hcin : c ∈ ks' ++ [c])
      by (apply elem_of_app; right; apply list_elem_of_here).
    assert (Hsc : tid s ∈ flatten c)
      by (eapply sub_at_in_flatten; eauto using tid_in_flatten).
    assert (Hkc : k ∉ flatten c).
    { intros Hin. apply Hk. cbn [flatten].
      apply list_elem_of_further, flat_map_elem. eauto. }
    assert (Hsk : tid s <> k) by (intros E; rewrite E in Hsc; auto).
    assert (His : i <> tid s).
    { intros ->. now apply (Hsub c Hcin). }
    assert (Hik : i <> k).
    { intros ->. apply Hk, (tid_in_flatten (T k (ks' ++ [c]))). }
    destruct (addChild_links h (tid s) k Hfree Hsk Hp Hlt)
      as (_ & _ & _ & _ & Hother).
    rewrite Forall_app, Forall_singleton in Hks. destruct Hks as [Hks' Hc].
    constructor.
    + rewrite Hother by congruence. exact Hpr.
    + rewrite Hother by congruence. rewrite Hch, !map_app. cbn [map].
      now rewrite tid_ins.
    + rewrite Forall_app, Forall_singleton. split.
      * rewrite Forall_forall in *. intros c' Hc'.
        apply (rep_ext h); [now apply Hks'|].
        intros x Hx. rewrite Hother; [auto| |].
        -- intros ->. now apply (Hdisj ks' c eq_refl (tid s) Hsc c' Hc').
        -- intros ->. apply Hk. cbn [flatten].
           apply list_elem_of_further, flat_map_elem.
           exists c'. split; [apply elem_of_app; now left|exact Hx].
      * apply (IH c (Some i) s); auto.
        now apply (Hsub c Hcin).
Qed.

(** Where the path of last children goes after [ins]. *)
Lemma sub_at_ins (k : nat) (j : nat) :
  forall t s,
    sub_at j t = Some s ->
    sub_at j (ins j k t) = Some (T (tid s) (kids s ++ [T k []])).
Proof.
  induction j as [|j IH]; intros [i ks] s; cbn [sub_at ins tid kids].
  - now intros [= <-].
  - destruct (last ks) as [c|] eqn:Hlast; [|discriminate].
    apply last_snoc_inv in Hlast as [ks' ->]. intros Hs.
    rewrite on_last_snoc, last_snoc. now apply IH.
Qed.

Lemma sub_at_ins_above (k : nat) (j j' : nat) :
  forall t s,
    sub_at j t = Some s -> j' <= j ->
    tid <$> sub_at j' (ins j k t) = tid <$> sub_at j' t.
Proof.
  revert j. induction j' as [|j' IH]; intros j t s Hs Hle.
  - cbn [sub_at fmap option_fmap option_map]. now rewrite tid_ins.
  - destruct j as [|j]; [lia|]. destruct t as [i ks].
    cbn [sub_at ins tid kids] in *.
    destruct (last ks) as [c|] eqn:Hlast; [|discriminate].
    apply last_snoc_inv in Hlast as [ks' ->].
    rewrite on_last_snoc, !last_snoc. apply (IH j c s Hs). lia.
Qed.

Lemma build_drained (fuel : nat) :
  (forall po nodes h r, build fuel po nodes h = Ok r -> r.1 = [])
  /\ (forall lvl po nodes h r,
        build_while fuel lvl po nodes h = Ok r -> r.1 = []).
Proof.
  induction fuel as [|fuel [IHb IHw]]; [split; discriminate|].
  split.
  - intros po [|n0 nodes] h r; cbn [build]; [now intros [= <-]|apply IHw].
  - intros lvl po [|node nodes] h r; cbn [build_while];
      [now intros [= <-]|].
    destruct (capa_level (get h node) =? lvl)%Z.
    + destruct (add_node po node h); cbn [mbind outcome_bind];
        try discriminate. apply IHw.
    + destruct (capa_level (get h node) >? lvl)%Z;
        (destruct po; cbn [deref]; [|discriminate]).
      * destruct (build fuel _ _ h) as [[ns h1]| |];
          cbn [mbind outcome_bind]; try discriminate. apply IHw.
      * destruct (add_node _ node h); cbn [mbind outcome_bind];
          try discriminate. apply IHw.
Qed.

Lemma build_none (fuel : nat) (n : nat) (ns : list nat) (h : heap)
    (r : list nat * heap) :
  build fuel None (n :: ns) h = Ok r -> False.
Proof.
  destruct fuel as [|[|fuel]]; try discriminate.
  cbn [build build_while]. rewrite Z.eqb_refl.
  destruct (add_node_none n h) as [attr ->]. discriminate.
Qed.

Lemma attachable_same_lines (h h' : heap) (x : nat) :
  same_lines h h' -> attachable h' x = attachable h x.
Proof. intros [_ H]. unfold attachable. now rewrite (proj1 (H x)). Qed.

Lemma building_NoDup_tail (t : tree) (node : nat) (nodes : list nat) :
  NoDup (flatten t ++ node :: nodes) ->
  NoDup (flatten t) /\ (node ∉ flatten t) /\ NoDup (flatten t ++ nodes)
  /\ (node ∉ nodes) /\ (forall x, x ∈ nodes -> x ∉ flatten t)
  /\ NoDup ((flatten t ++ [node]) ++ nodes).
Proof.
  intros Hnd. assert (Hnd' := Hnd).
  rewrite cons_middle, app_assoc in Hnd'.
  apply NoDup_app in Hnd as (Ht & Hdisj & Hns).
  apply NoDup_cons in Hns as [Hn Hns]. repeat split; auto.
  - intros Hin. apply (Hdisj node Hin), list_elem_of_here.
  - apply NoDup_app. repeat split; auto.
    intros x Hx Hxn. apply (Hdisj x Hx). now apply list_elem_of_further.
  - intros x Hx Hxt. apply (Hdisj x Hxt). now apply list_elem_of_further.
Qed.

(** A description set somewhere leaves the builder where it is. *)
Lemma building_set_text (h : heap) (t : tree) (node : nat)
    (nodes : list nat) (x : nat) (v : string) :
  building h t (node :: nodes) -> building (set_text h x 1 v) t nodes.
Proof.
  intros (Hrep & Hnd & Hfresh & Hlt).
  destruct (building_NoDup_tail t node nodes Hnd)
    as (_ & _ & Hnd' & _).
  split; [|split; [exact Hnd'|split]].
  - apply (rep_ext h); [exact Hrep|].
    intros y _. destruct (get_set_text h x 1 v y). auto.
  - intros y Hy. destruct (get_set_text h x 1 v y) as [Hc Hp].
    rewrite Hc, Hp. apply Hfresh. now apply list_elem_of_further.
  - intros y Hy. unfold set_text. rewrite length_insert. apply Hlt.
    apply elem_of_app in Hy as [Hy|Hy]; apply elem_of_app; auto.
    right. now apply list_elem_of_further.
Qed.

(** One line handed to [add_node] under an item of the path. *)
Lemma add_node_building (h h1 : heap) (t : tree) (node : nat)
    (nodes : list nat) (j : nat) (sp : tree) :
  building h t (node :: nodes) ->
  sub_at j t = Some sp ->
  add_node (Some (tid sp)) node h = Ok h1 ->
  exists t1 sp1,
    building h1 t1 nodes
    /\ sub_at j t1 = Some sp1 /\ tid sp1 = tid sp
    /\ tid t1 = tid t
    /\ flatten t1
       = flatten t ++ (if attachable h node then [node] else []).
Proof.
  intros Hb Hsp. unfold add_node, attachable, is_description_line.
  cbn [text].
  destruct (startswith _ "description:") eqn:Hd; cbn [deref orb negb].
  { destruct (negb _).
    - destruct (child h (tid sp) _) as [c|]; cbn [deref]; [|discriminate].
      intros [= <-]. exists t, sp. rewrite app_nil_r.
      split; [eapply building_set_text; eauto|auto].
    - intros [= <-]. exists t, sp. rewrite app_nil_r.
      split; [eapply building_set_text; eauto|auto]. }
  destruct (startswith _ "- description:") eqn:Hdd; cbn [negb].
  { intros [= <-]. exists t, sp. rewrite app_nil_r.
    split; [eapply building_set_text; eauto|auto]. }
  intros [= <-]. destruct Hb as (Hrep & Hnd & Hfresh & Hlt).
  destruct (building_NoDup_tail t node nodes Hnd)
    as (Ht & Hnt & _ & Hnn & Hdisj & Hnd1).
  assert (Hspt : tid sp ∈ flatten t)
    by (eapply sub_at_in_flatten; eauto using tid_in_flatten).
  assert (Hnode : node ∈ node :: nodes) by apply list_elem_of_here.
  destruct (Hfresh node Hnode) as [Hfree Hleaf].
  assert (Hplt : tid sp < List.length h)
    by (apply Hlt, elem_of_app; now left).
  assert (Hnlt : node < List.length h)
    by (apply Hlt, elem_of_app; now right).
  assert (Hne : tid sp <> node) by (intros E; rewrite E in Hspt; auto).
  destruct (addChild_links h (tid sp) node Hfree Hne Hplt Hnlt)
    as (_ & _ & _ & _ & Hother).
  exists (ins j node t), (T (tid sp) (kids sp ++ [T node []])).
  split; [split; [|split; [|split]]|].
  - now apply rep_ins.
  - rewrite (flatten_ins j node t sp Hsp). exact Hnd1.
  - intros y Hy.
    rewrite Hother; [apply Hfresh; now apply list_elem_of_further| |].
    + intros ->. now apply (Hdisj (tid sp)).
    + intros ->. auto.
  - intros y Hy. rewrite (proj1 (same_lines_addChild h (tid sp) node)).
    apply Hlt. rewrite (flatten_ins j node t sp Hsp) in Hy.
    rewrite <- app_assoc in Hy. exact Hy.
  - split; [now apply sub_at_ins|]. split; [reflexivity|].
    split; [apply tid_ins|]. now apply flatten_ins with (s := sp).
Qed.

Lemma filter_attachable_cons (h : heap) (node : nat) (nodes : list nat)
    (l : list nat) :
  (l ++ (if attachable h node then [node] else []))
  ++ List.filter (attachable h) nodes
  = l ++ List.filter (attachable h) (node :: nodes).
Proof.
  cbn [List.filter]. destruct (attachable h node).
  - now rewrite <- app_assoc.
  - now rewrite app_nil_r.
Qed.

Lemma filter_attachable_same (h h' : heap) (nodes : list nat) :
  same_lines h h' ->
  List.filter (attachable h') nodes = List.filter (attachable h) nodes.
Proof.
  intros Hs. induction nodes as [|x nodes IH]; [reflexivity|].
  cbn [List.filter]. now rewrite (attachable_same_lines h h' x Hs), IH.
Qed.

(** The builder adds to the pre-order of the tree, in their order, the
    nodes whose line is no description. *)
Lemma build_tree (fuel : nat) :
  (forall nodes h t r j sp,
     building h t nodes -> sub_at j t = Some sp ->
     build fuel (Some (tid sp)) nodes h = Ok r ->
     exists t',
       building r.2 t' [] /\ tid t' = tid t
       /\ flatten t' = flatten t ++ List.filter (attachable h) nodes)
  /\ (forall lvl nodes h t r j sp,
        building h t nodes -> sub_at j t = Some sp ->
        build_while fuel lvl (Some (tid sp)) nodes h = Ok r ->
        exists t',
          building r.2 t' [] /\ tid t' = tid t
          /\ flatten t' = flatten t ++ List.filter (attachable h) nodes).
Proof.
  induction fuel as [|fuel [IHb IHw]]; [split; discriminate|].
  assert (Hstep : forall lvl node nodes h t r j sp,
            building h t (node :: nodes) -> sub_at j t = Some sp ->
            (h1 ← add_node (Some (tid sp)) node h;
             build_while fuel lvl (Some (tid sp)) nodes h1) = Ok r ->
            exists t',
              building r.2 t' [] /\ tid t' = tid t
              /\ flatten t'
                 = flatten t ++ List.filter (attachable h) (node :: nodes)).
  { intros lvl node nodes h t r j sp Hb Hsp.
    destruct (add_node (Some (tid sp)) node h) as [h1| |] eqn:Ha;
      cbn [mbind outcome_bind]; try discriminate.
    intros Hw.
    destruct (add_node_building h h1 t node nodes j sp Hb Hsp Ha)
      as (t1 & sp1 & Hb1 & Hsp1 & Hid & Htid & Hflat).
    rewrite <- Hid in Hw.
    destruct (IHw lvl nodes h1 t1 r j sp1 Hb1 Hsp1 Hw)
      as (t' & Hb' & Htid' & Hflat').
    exists t'. split; [exact Hb'|]. split; [congruence|].
    rewrite Hflat', Hflat.
    rewrite (filter_attachable_same h h1 nodes
               (add_node_same_lines _ _ _ _ Ha)).
    apply filter_attachable_cons. }
  split.
  - intros [|n0 nodes] h t r j sp Hb Hsp; cbn [build].
    + intros [= <-]. exists t. cbn [snd List.filter]. rewrite app_nil_r.
      auto.
    + now apply (IHw _ _ _ _ _ j sp).
  - intros lvl [|node nodes] h t r j sp Hb Hsp; cbn [build_while].
    + intros [= <-]. exists t. cbn [snd List.filter]. rewrite app_nil_r.
      auto.
    + destruct (capa_level (get h node) =? lvl)%Z;
        [now apply (Hstep lvl _ _ _ _ _ j sp)|].
      pose proof (rep_sub_at h j t None sp (proj1 Hb) Hsp) as Hrsp.
      destruct sp as [p ks] eqn:Esp. cbn [tid] in *.
      apply rep_inv in Hrsp as (Hpar & Hch & _).
      destruct (capa_level (get h node) >? lvl)%Z; cbn [deref].
      * rewrite child_last, Hch, fmap_last.
        destruct (build fuel _ (node :: nodes) h) as [[ns h2]| |] eqn:Hnest;
          cbn [mbind outcome_bind]; try discriminate.
        pose proof (proj1 (build_drained fuel) _ _ _ _ Hnest) as Hns.
        cbn [fst] in Hns. subst ns.
        destruct (last ks) as [sc|] eqn:Hlast;
          cbn [fmap option_fmap option_map] in Hnest;
          [|now apply build_none in Hnest].
        assert (Hsc : sub_at (S j) t = Some sc).
        { rewrite sub_at_S, Hsp. exact Hlast. }
        destruct (IHb _ _ _ _ _ _ Hb Hsc Hnest) as (t' & Hb' & Htid & Hfl).
        destruct fuel as [|fuel']; [discriminate|]. cbn [build_while].
        intros [= <-]. exists t'. auto.
      * assert (Hup : exists j' sp',
                  sub_at j' t = Some sp'
                  /\ match par (get h p) with
                     | Some g => Some g
                     | None => Some p
                     end = Some (tid sp')).
        { destruct j as [|j0].
          - exists 0, (T p ks). rewrite Hpar. split; [exact Hsp|reflexivity].
          - rewrite sub_at_S in Hsp.
            destruct (sub_at j0 t) as [q|] eqn:Hq; [|discriminate].
            exists j0, q. rewrite Hpar. split; [exact Hq|reflexivity]. }
        destruct Hup as (j' & sp' & Hsp' & ->).
        now apply (Hstep lvl _ _ _ _ _ j' sp').
Qed.

End BuildTree.

Section LoadedTree.
Import PyStr View.
#[local] Open Scope list_scope.

(** With enough fuel, Qt's pre-order walk of a held tree is its
    pre-order. *)
Lemma preorder_rep (h : heap) (t : tree) :
  forall pr fuel,
    rep h pr t -> List.length (flatten t) <= fuel ->
    preorder fuel h (tid t) = flatten t.
Proof.
  induction t as [i ks IH] using tree_Forall_ind. intros pr fuel Hrep Hfuel.
  apply rep_inv in Hrep as (_ & Hch & Hks).
  cbn [flatten List.length] in Hfuel. cbn [flatten tid].
  destruct fuel as [|fuel]; [lia|]. cbn [preorder]. f_equal.
  rewrite Hch. apply le_S_n in Hfuel. clear Hch.
  induction ks as [|k ks IHks]; [reflexivity|].
  cbn [map flat_map]. cbn [flat_map] in Hfuel.
  rewrite length_app in Hfuel.
  apply Forall_cons in IH as [IHk IH]. apply Forall_cons in Hks as [Hk Hks].
  rewrite (IHk (Some i) fuel Hk) by lia. f_equal.
  apply IHks; auto. lia.
Qed.

Lemma NoDup_bounded_length (l : list nat) (n : nat) :
  NoDup l -> (forall x, x ∈ l -> x < n) -> List.length l <= n.
Proof.
  intros Hnd Hlt. rewrite <- (length_seq n 0).
  apply submseteq_length, NoDup_submseteq; [exact Hnd|].
  intros x Hx. apply elem_of_seq. specialize (Hlt x Hx). lia.
Qed.

(** The items made by [yaml_to_nodes] are ready for the builder. *)
Lemma yaml_to_nodes_building (s : string) (it0 : item) (h0 : heap) :
  yaml_to_nodes s = it0 :: h0 ->
  building (it0 :: h0) (T 0 []) (seq 1 (List.length h0)).
Proof.
  intros Hs.
  assert (Hunlinked : forall x,
            par (get (it0 :: h0) x) = None
            /\ children (get (it0 :: h0) x) = []).
  { intros x. rewrite <- Hs. unfold get, yaml_to_nodes.
    rewrite list_lookup_fmap.
    destruct (splitlines s !! x) as [line|]; [|now split].
    cbn [fmap option_fmap option_map default].
    destruct (parse_feature_for_node (strip line)) as [[f d] c].
    now split. }
  split; [|split; [|split]].
  - constructor; [apply Hunlinked|apply Hunlinked|constructor].
  - cbn [flatten flat_map app]. apply (NoDup_seq 0 (S (List.length h0))).
  - intros x _. apply Hunlinked.
  - intros x Hx. change (x ∈ seq 0 (S (List.length h0))) in Hx.
    apply elem_of_seq in Hx. cbn [List.length]. lia.
Qed.

(** X19.  When a rule text with a body loads, the editor's iteration lists
    the root, then the other lines of the body in their order, less the
    lines that begin with [description:] or [- description:]: whatever the
    indentation made of the tree, the serializer meets the lines in the
    order of the text. *)
Theorem load_features_from_yaml_iterates_in_line_order (rule_text : string)
    (update_preview : bool) (ed ed' : editor) :
  load_features_from_yaml rule_text update_preview ed = Ok ed' ->
  items ed' <> [] ->
  iterate_tree ed'
  = 0 :: List.filter (attachable (items ed'))
           (seq 1 (List.length (items ed') - 1)).
Proof.
  unfold load_features_from_yaml.
  destruct (find rule_text "features:") as [i|];
    [|intros [= <-]; cbn [items reset_view]; congruence].
  destruct (yaml_to_nodes _) as [|it0 h0] eqn:Hh;
    [intros [= <-]; cbn [items reset_view]; congruence|].
  cbn [List.length seq].
  destruct (build _ (Some 0) _ (it0 :: h0)) as [[ns h1]| |] eqn:Hb;
    cbn [mbind outcome_bind]; try discriminate.
  intros [= <-] _. unfold iterate_tree. cbn [items top_level flat_map].
  rewrite app_nil_r.
  pose proof (yaml_to_nodes_building _ it0 h0 Hh) as Hbuilding.
  destruct (proj1 (build_tree _) _ _ _ _ 0 (T 0 []) Hbuilding eq_refl Hb)
    as (t' & (Hrep & Hnd & _ & Hlt) & Htid & Hflat).
  cbn [snd tid flatten flat_map app] in *. rewrite app_nil_r in *.
  pose proof (proj1 (build_same_lines _) _ _ _ _ Hb) as Hsame.
  cbn [snd] in Hsame.
  pose proof (preorder_rep h1 t' None (List.length h1) Hrep
                (NoDup_bounded_length _ _ Hnd Hlt)) as Hpre.
  rewrite Htid in Hpre. rewrite Hpre, Hflat, (proj1 Hsame).
  cbn [List.length Nat.sub]. rewrite ?Nat.sub_0_r.
  now rewrite (filter_attachable_same (it0 :: h0) h1 _ Hsame).
Qed.

Lemma load_features_from_yaml_iterates_in_line_order_witness :
  exists ed',
    load_features_from_yaml Samples.deep_dedent_rule true
      Samples.empty_editor = Ok ed'
    /\ iterate_tree ed' = [0; 1; 2; 3; 4; 5].
Proof.
  destruct (load_features_from_yaml Samples.deep_dedent_rule true
              Samples.empty_editor) as [ed'| |] eqn:Hload;
    [|vm_compute in Hload; discriminate..].
  exists ed'. split; [reflexivity|].
  rewrite (load_features_from_yaml_iterates_in_line_order _ _ _ _ Hload).
  - assert (Hed : Ok ed'
                  = load_features_from_yaml Samples.deep_dedent_rule true
                      Samples.empty_editor) by now rewrite Hload.
    vm_compute in Hed. injection Hed as ->. vm_compute. reflexivity.
  - assert (Hed : Ok ed'
                  = load_features_from_yaml Samples.deep_dedent_rule true
                      Samples.empty_editor) by now rewrite Hload.
    vm_compute in Hed. injection Hed as ->. discriminate.
Defined.

End LoadedTree.

(** * Properties of the feature list: [update_features] *)

Section CounterProps.
Import PyStr View.
Context {Feature : Type} `{EqDecision Feature}.
#[local] Open Scope list_scope.

Lemma occurrences_cons (k x : Feature) (l : list Feature) :
  occurrences k (x :: l)
  = (if decide (x = k) then 1 else 0) + occurrences k l.
Proof.
  unfold occurrences. cbn [List.filter].
  destruct (decide (x = k)) as [E|E].
  - rewrite bool_decide_eq_true_2 by exact E. reflexivity.
  - rewrite bool_decide_eq_false_2 by exact E. reflexivity.
Qed.

Lemma counter_incr_absent (k : Feature) (c : list (Feature * nat)) :
  (k ∉ c.*1) -> counter_incr k c = c ++ [(k, 1)].
Proof.
  induction c as [|[k' v] c IH]; [reflexivity|].
  cbn [counter_incr fmap list_fmap fst app]. intros Hk.
  apply not_elem_of_cons in Hk as [Hne Hk].
  destruct (decide (k = k')) as [E|_]; [contradiction|].
  now rewrite (IH Hk).
Qed.

Lemma counter_incr_present (k : Feature) (c : list (Feature * nat)) :
  k ∈ c.*1 -> NoDup c.*1 ->
  counter_incr k c
  = map (fun kv => (fst kv, snd kv + (if decide (fst kv = k) then 1 else 0)))
      c.
Proof.
  induction c as [|[k' v] c IH]; [intros Hk; inversion Hk|].
  cbn [counter_incr fmap list_fmap fst snd map]. intros Hk Hnd.
  apply NoDup_cons in Hnd as [Hk' Hnd].
  destruct (decide (k = k')) as [<-|Hne].
  - rewrite decide_True by reflexivity. f_equal; [f_equal; lia|].
    clear IH Hk Hnd. induction c as [|[k2 v2] c IH]; [reflexivity|].
    cbn [fmap list_fmap fst] in Hk'.
    apply not_elem_of_cons in Hk' as [Hne Hk'].
    cbn [map fst snd]. rewrite decide_False by congruence.
    rewrite Nat.add_0_r. f_equal. exact (IH Hk').
  - rewrite decide_False by congruence. rewrite Nat.add_0_r. f_equal.
    apply IH; [|exact Hnd].
    apply elem_of_cons in Hk as [E|Hk]; [contradiction|exact Hk].
Qed.

Lemma counter_keys_present (k : Feature) (c : list (Feature * nat)) :
  (map (fun kv => (fst kv, snd kv + (if decide (fst kv = k) then 1 else 0)))
     c).*1 = c.*1.
Proof.
  induction c as [|[k' v] c IH]; [reflexivity|].
  cbn [map fmap list_fmap fst]. f_equal. exact IH.
Qed.

(** Skipping [x] changes nothing among the keys that are not in [ks],
    when [x] is in [ks]. *)
Lemma filter_fresh_seen (x : Feature) (ks : list Feature)
    (l l' : list Feature) :
  x ∈ ks ->
  map (fun k => (k, occurrences k (x :: l')))
    (List.filter (fun k => negb (bool_decide (k ∈ ks)))
       (List.filter (fun y => negb (bool_decide (y = x))) l))
  = map (fun k => (k, occurrences k l'))
      (List.filter (fun k => negb (bool_decide (k ∈ ks))) l).
Proof.
  intros Hx. induction l as [|y l IH]; [reflexivity|].
  cbn [List.filter]. destruct (decide (y = x)) as [->|Hne].
  - rewrite bool_decide_eq_true_2 by reflexivity. cbn [negb].
    rewrite (bool_decide_eq_true_2 (x ∈ ks)) by exact Hx. cbn [negb].
    exact IH.
  - rewrite (bool_decide_eq_false_2 (y = x)) by exact Hne.
    cbn [negb List.filter].
    destruct (bool_decide (y ∈ ks)); cbn [negb map]; [exact IH|].
    rewrite occurrences_cons, decide_False by congruence.
    f_equal. exact IH.
Qed.

(** The keys not in [ks ++ [x]] are those not in [ks] and other than
    [x]. *)
Lemma filter_fresh_new (x : Feature) (ks : list Feature)
    (l l' : list Feature) :
  map (fun k => (k, occurrences k (x :: l')))
    (List.filter (fun k => negb (bool_decide (k ∈ ks)))
       (List.filter (fun y => negb (bool_decide (y = x))) l))
  = map (fun k => (k, occurrences k l'))
      (List.filter (fun k => negb (bool_decide (k ∈ ks ++ [x]))) l).
Proof.
  induction l as [|y l IH]; [reflexivity|].
  cbn [List.filter]. destruct (decide (y = x)) as [->|Hne].
  - rewrite bool_decide_eq_true_2 by reflexivity. cbn [negb].
    rewrite (bool_decide_eq_true_2 (x ∈ ks ++ [x]))
      by (apply elem_of_app; right; apply list_elem_of_here).
    cbn [negb]. exact IH.
  - rewrite (bool_decide_eq_false_2 (y = x)) by exact Hne.
    cbn [negb List.filter].
    destruct (decide (y ∈ ks)) as [Hy|Hy].
    + rewrite (bool_decide_eq_true_2 (y ∈ ks)) by exact Hy.
      rewrite (bool_decide_eq_true_2 (y ∈ ks ++ [x]))
        by (apply elem_of_app; left; exact Hy).
      cbn [negb]. exact IH.
    + rewrite (bool_decide_eq_false_2 (y ∈ ks)) by exact Hy.
      rewrite (bool_decide_eq_false_2 (y ∈ ks ++ [x])).
      2:{ intros [H'|H']%elem_of_app; [contradiction|].
          apply list_elem_of_singleton in H'. contradiction. }
      cbn [negb map]. rewrite occurrences_cons, decide_False by congruence.
      f_equal. exact IH.
Qed.

(** The counter after a list of updates: the counts it had, raised by the
    occurrences, then the new keys in the order in which they first
    occur. *)
Lemma fold_counter_incr (l : list Feature) :
  forall c : list (Feature * nat),
    NoDup c.*1 ->
    fold_left (fun c k => counter_incr k c) l c
    = map (fun kv => (fst kv, snd kv + occurrences (fst kv) l)) c
      ++ map (fun k => (k, occurrences k l))
           (List.filter (fun k => negb (bool_decide (k ∈ c.*1)))
              (first_occurrences l)).
Proof.
  induction l as [|x l IH]; intros c Hnd.
  - cbn [fold_left first_occurrences List.filter map]. rewrite app_nil_r.
    induction c as [|[k v] c IHc]; [reflexivity|].
    cbn [map fst snd]. apply NoDup_cons in Hnd as [_ Hnd].
    rewrite <- (IHc Hnd) at 1. unfold occurrences. cbn [List.filter].
    now rewrite Nat.add_0_r.
  - cbn [fold_left first_occurrences].
    destruct (decide (x ∈ c.*1)) as [Hx|Hx].
    + rewrite (counter_incr_present x c Hx Hnd), IH
        by (rewrite counter_keys_present; exact Hnd).
      rewrite counter_keys_present, map_map. f_equal.
      * apply map_ext. intros [k v]. cbn [fst snd].
        rewrite occurrences_cons. f_equal.
        destruct (decide (k = x)) as [->|Hne].
        -- rewrite decide_True by reflexivity. lia.
        -- rewrite decide_False by congruence. lia.
      * cbn [List.filter].
        rewrite (bool_decide_eq_true_2 (x ∈ c.*1)) by exact Hx.
        cbn [negb]. symmetry. apply filter_fresh_seen. exact Hx.
    + rewrite (counter_incr_absent x c Hx), IH.
      2:{ rewrite fmap_app. apply NoDup_app. split; [exact Hnd|].
          split; [|apply NoDup_singleton].
          intros y Hy Hy'. apply list_elem_of_singleton in Hy'.
          subst y. contradiction. }
      rewrite map_app, fmap_app, <- app_assoc. f_equal.
      * clear IH Hnd. induction c as [|[k v] c IHc]; [reflexivity|].
        cbn [fmap list_fmap fst] in Hx.
        apply not_elem_of_cons in Hx as [Hne Hx].
        cbn [map fst snd]. rewrite occurrences_cons.
        rewrite decide_False by congruence. f_equal. exact (IHc Hx).
      * cbn [map fst snd app fmap list_fmap List.filter].
        rewrite (bool_decide_eq_false_2 (x ∈ c.*1)) by exact Hx.
        cbn [negb map]. rewrite occurrences_cons, decide_True by reflexivity.
        f_equal. symmetry. apply filter_fresh_new.
Qed.

(** [Counter] lists the distinct features in the order in which they first
    occur, each with the number of its occurrences. *)
Lemma Counter_first_occurrences (features : list Feature) :
  Counter features
  = map (fun k => (k, occurrences k features)) (first_occurrences features).
Proof.
  unfold Counter. rewrite fold_counter_incr by apply NoDup_nil_2.
  cbn [map app fmap list_fmap]. f_equal.
  induction (first_occurrences features) as [|k ks IH]; [reflexivity|].
  cbn [List.filter]. rewrite bool_decide_eq_false_2 by apply not_elem_of_nil.
  cbn [negb]. f_equal. exact IH.
Qed.

End CounterProps.

Section NewNodeProps.
Import PyStr View.
#[local] Open Scope list_scope.

Lemma get_snoc (l : heap) (x : item) (n : nat) :
  n = List.length l -> get (l ++ [x]) n = x.
Proof. intros ->. unfold get. now rewrite list_lookup_middle. Qed.

Lemma insert_snoc (l : heap) (x y : item) (n : nat) :
  n = List.length l -> <[n := y]> (l ++ [x]) = l ++ [y].
Proof.
  intros ->. rewrite insert_app_r_alt by lia. now rewrite Nat.sub_diag.
Qed.

Lemma get_app_l (l l' : heap) (i : nat) :
  i < List.length l -> get (l ++ l') i = get l i.
Proof. intros Hi. unfold get. now rewrite lookup_app_l. Qed.

Lemma get_in_range (h : heap) (i : nat) :
  i < List.length h -> h !! i = Some (get h i).
Proof.
  intros Hi. unfold get. destruct (lookup_lt_is_Some_2 h i Hi) as [x ->].
  reflexivity.
Qed.

Lemma with_children_nil (q : item) : with_children q [] = q.
Proof. destruct q. unfold with_children. cbn. now rewrite app_nil_r. Qed.

Lemma with_children_app (q : item) (cs cs' : list nat) :
  with_children (with_children q cs) cs' = with_children q (cs ++ cs').
Proof. unfold with_children. cbn. now rewrite app_assoc. Qed.

(** A node made under the item [r]: the heap grows by the node, and [r]
    has one child more. *)
Lemma new_node_under (ty r : nat) (t : string) (ed : editor) :
  r < List.length (items ed) ->
  new_node ty (Parent r) [t; ""] ed
  = (List.length (items ed),
     Editor (<[r := with_children (get (items ed) r)
                      [List.length (items ed)]]> (items ed)
             ++ [fresh_node ty (Some r) t])
       (top_level ed) (root ed) (preview ed)).
Proof.
  intros Hr. destruct ed as [h tl rt pv].
  cbn [items top_level root preview] in *.
  unfold new_node, QTreeWidgetItem. cbn [items top_level root preview].
  f_equal. f_equal. unfold addChild.
  rewrite (get_snoc h blank_item _ eq_refl). cbn [par blank_item].
  rewrite (insert_snoc h _ _ _ eq_refl).
  rewrite (get_app_l h _ r Hr), insert_app_l by exact Hr.
  cbn [feature_col description_col comment_col capa_level capa_type children].
  fold (with_children (get h r) [List.length h]).
  set (h' := <[r := with_children (get h r) [List.length h]]> h).
  assert (Hn : List.length h = List.length h')
    by (unfold h'; now rewrite length_insert).
  unfold set_capa_type. rewrite (get_snoc h' _ _ Hn).
  rewrite (insert_snoc h' _ _ _ Hn).
  unfold set_texts. cbn [List.length seq combine fold_left fst snd].
  unfold set_text. rewrite (get_snoc h' _ _ Hn).
  rewrite (insert_snoc h' _ _ _ Hn). rewrite (get_snoc h' _ _ Hn).
  rewrite (insert_snoc h' _ _ _ Hn). reflexivity.
Qed.

(** Nodes made one after the other under [r]. *)
Lemma new_nodes_under (ty r : nat) (ts : list string) :
  forall ed : editor,
    r < List.length (items ed) ->
    fold_left (fun ed t => snd (new_node ty (Parent r) [t; ""] ed)) ts ed
    = Editor (<[r := with_children (get (items ed) r)
                       (seq (List.length (items ed)) (List.length ts))]>
                (items ed)
              ++ map (fresh_node ty (Some r)) ts)
        (top_level ed) (root ed) (preview ed).
Proof.
  induction ts as [|t ts IH]; intros ed Hr.
  - cbn [fold_left List.length seq map]. rewrite app_nil_r, with_children_nil.
    rewrite list_insert_id by (apply get_in_range; exact Hr).
    now destruct ed.
  - cbn [fold_left]. rewrite (new_node_under ty r t ed Hr). cbn [snd].
    rewrite IH; cbn [items top_level root preview];
      [|rewrite length_app, length_insert; lia].
    f_equal. rewrite length_app, length_insert. cbn [List.length map].
    rewrite (get_app_l _ _ r) by (rewrite length_insert; exact Hr).
    unfold get at 1. rewrite list_lookup_insert_eq by exact Hr.
    cbn [default id]. rewrite with_children_app.
    rewrite insert_app_l by (rewrite length_insert; exact Hr).
    rewrite list_insert_insert_eq, <- app_assoc. cbn [app].
    now rewrite Nat.add_1_r.
Qed.

Lemma fold_left_map_arg {A B C : Type} (f : A -> C -> A) (g : B -> C)
    (l : list B) (a : A) :
  fold_left (fun a b => f a (g b)) l a = fold_left f (map g l) a.
Proof. revert a. induction l as [|b l IH]; intros a; cbn; auto. Qed.

End NewNodeProps.

Section UpdateFeaturesProps.
Import PyStr View.
Context {Feature : Type} `{EqDecision Feature} `{FeatureOps Feature}.
#[local] Open Scope list_scope.

Lemma first_occurrences_elem (l : list Feature) (k : Feature) :
  k ∈ first_occurrences l <-> k ∈ l.
Proof.
  induction l as [|x l IH]; [reflexivity|].
  cbn [first_occurrences]. rewrite !elem_of_cons, <- IH.
  rewrite !list_elem_of_In, filter_In, negb_true_iff, bool_decide_eq_false.
  destruct (decide (k = x)); tauto.
Qed.

Lemma first_occurrences_NoDup (l : list Feature) :
  NoDup (first_occurrences l).
Proof.
  induction l as [|x l IH]; [apply NoDup_nil_2|].
  cbn [first_occurrences]. apply NoDup_cons. split.
  - rewrite list_elem_of_In, filter_In, negb_true_iff, bool_decide_eq_false.
    tauto.
  - apply NoDup_ListNoDup, List.NoDup_filter, NoDup_ListNoDup, IH.
Qed.

Lemma occurrences_elem (l : list Feature) (k : Feature) :
  k ∈ l -> 0 < occurrences k l.
Proof.
  induction l as [|x l IH]; [intros Hk; inversion Hk|].
  rewrite occurrences_cons. intros [->|Hk]%elem_of_cons.
  - rewrite decide_True by reflexivity. lia.
  - specialize (IH Hk). lia.
Qed.

(** Each distinct feature gives one text. *)
Lemma length_feature_texts (features : list Feature) :
  List.length (feature_texts features)
  = List.length (first_occurrences features).
Proof.
  unfold feature_texts. cbv zeta. rewrite length_app, !length_map.
  assert (Hin : forall k, k ∈ first_occurrences features ->
                          0 < occurrences k features).
  { intros k Hk. now apply occurrences_elem, first_occurrences_elem. }
  induction (first_occurrences features) as [|k ks IH]; [reflexivity|].
  cbn [List.filter]. pose proof (Hin k (list_elem_of_here _ _)) as Hk.
  assert (IH' := IH (fun k' Hk' => Hin k' (list_elem_of_further _ _ _ Hk'))).
  destruct (Nat.eqb_spec (occurrences k features) 1) as [E|E];
    destruct (Nat.ltb_spec 1 (occurrences k features)) as [L|L];
    cbn [List.length]; lia.
Qed.

(** The nodes the two loops of [update_features] make under [r]. *)
Lemma update_features_loops (features : list Feature) (r : nat)
    (ed : editor) :
  r < List.length (items ed) ->
  fold_left
    (fun ed kv =>
       snd (new_feature_node (Parent r)
              [count_text (fst kv) (snd kv); ""] ed))
    (List.filter (fun t => Nat.ltb 1 (snd t)) (Counter features))
    (fold_left
       (fun ed kv =>
          snd (new_feature_node (Parent r) [single_text (fst kv); ""] ed))
       (List.filter (fun t => Nat.eqb (snd t) 1) (Counter features)) ed)
  = Editor (<[r := with_children (get (items ed) r)
                     (seq (List.length (items ed))
                        (List.length (feature_texts features)))]>
              (items ed)
            ++ map (fresh_node get_node_type_feature (Some r))
                 (feature_texts features))
      (top_level ed) (root ed) (preview ed).
Proof.
  intros Hr. rewrite Counter_first_occurrences, !filter_map_swap.
  cbn [snd].
  rewrite (fold_left_map_arg
             (fun ed t => snd (new_feature_node (Parent r) [t; ""] ed))
             (fun kv : Feature * nat => single_text (fst kv))).
  rewrite (fold_left_map_arg
             (fun ed t => snd (new_feature_node (Parent r) [t; ""] ed))
             (fun kv : Feature * nat => count_text (fst kv) (snd kv))).
  rewrite <- fold_left_app, !map_map. cbn [fst snd].
  unfold new_feature_node. rewrite new_nodes_under by exact Hr.
  reflexivity.
Qed.

(** X20.  With a root in place, [update_features] adds under it, after the
    children it has, one feature node per distinct feature of the
    selection, and changes no other item: the features selected once
    come first, as [- name: value], then the features selected more often,
    as [- count(feature): n] with [n] the number of times the feature was
    selected. *)
Theorem update_features_one_node_per_feature (features : list Feature)
    (ed : editor) (r : nat) :
  root ed = Some r ->
  r < List.length (items ed) ->
  items (update_features features ed)
  = <[r := with_children (get (items ed) r)
             (seq (List.length (items ed))
                (List.length (feature_texts features)))]> (items ed)
    ++ map (fresh_node get_node_type_feature (Some r))
         (feature_texts features)
  /\ List.length (feature_texts features)
     = List.length (first_occurrences features)
  /\ NoDup (first_occurrences features)
  /\ (forall k, k ∈ first_occurrences features <-> k ∈ features)
  /\ top_level (update_features features ed) = top_level ed
  /\ root (update_features features ed) = Some r.
Proof.
  intros Hroot Hr. unfold update_features. rewrite Hroot.
  rewrite (update_features_loops features r ed Hr).
  cbn [update_preview items top_level root].
  repeat split; auto using length_feature_texts, first_occurrences_NoDup.
  all: apply first_occurrences_elem.
Qed.

Lemma new_node_widget (ty : nat) (t : string) (ed : editor) :
  new_node ty Widget [t; ""] ed
  = (List.length (items ed),
     Editor (items ed ++ [fresh_node ty None t])
       (top_level ed ++ [List.length (items ed)]) (root ed) (preview ed)).
Proof.
  destruct ed as [h tl rt pv]. unfold new_node, QTreeWidgetItem.
  cbn [items top_level root preview]. f_equal. f_equal.
  unfold set_capa_type. rewrite (get_snoc h _ _ eq_refl).
  rewrite (insert_snoc h _ _ _ eq_refl).
  unfold set_texts. cbn [List.length seq combine fold_left fst snd].
  unfold set_text. rewrite (get_snoc h _ _ eq_refl).
  rewrite (insert_snoc h _ _ _ eq_refl), (get_snoc h _ _ eq_refl).
  rewrite (insert_snoc h _ _ _ eq_refl). reflexivity.
Qed.

(** X21.  Without a root, [update_features] first makes the expression [- or:]
    a top-level item and the root, whatever the selection, an empty one
    too; the feature nodes become its children. *)
Theorem update_features_creates_root (features : list Feature)
    (ed : editor) :
  root ed = None ->
  let n := List.length (items ed) in
  items (update_features features ed)
  = items ed
    ++ Item "- or:" "" "" 0 get_node_type_expression None
         (seq (S n) (List.length (feature_texts features)))
       :: map (fresh_node get_node_type_feature (Some n))
            (feature_texts features)
  /\ top_level (update_features features ed) = top_level ed ++ [n]
  /\ root (update_features features ed) = Some n.
Proof.
  intros Hroot n. unfold update_features. rewrite Hroot.
  unfold new_expression_node. rewrite new_node_widget. fold n.
  rewrite update_features_loops;
    cbn [items top_level root preview];
    [|rewrite length_app; cbn [List.length]; lia].
  cbn [update_preview items top_level root].
  split; [|split; reflexivity].
  rewrite (get_snoc (items ed) _ _ eq_refl).
  rewrite (insert_snoc (items ed) _ _ _ eq_refl), <- app_assoc.
  rewrite length_app. cbn [List.length app]. rewrite Nat.add_1_r.
  reflexivity.
Qed.

End UpdateFeaturesProps.

Section UpdateFeaturesWitnesses.
Import PyStr View.

Lemma update_features_one_node_per_feature_witness :
  items (update_features Samples.selection Samples.or_editor)
  = [Item "- or:" "" "" 0 get_node_type_expression None [1; 2];
     Item "- number: 5" "" "" 0 get_node_type_feature (Some 0) [];
     Item "- count(api(CreateFileA)): 2" "" "" 0 get_node_type_feature
       (Some 0) []].
Proof.
  exact (proj1 (update_features_one_node_per_feature Samples.selection
                  Samples.or_editor 0 eq_refl (le_n 1))).
Defined.

Lemma update_features_creates_root_witness :
  items (update_features Samples.selection Samples.empty_editor)
  = [Item "- or:" "" "" 0 get_node_type_expression None [1; 2];
     Item "- number: 5" "" "" 0 get_node_type_feature (Some 0) [];
     Item "- count(api(CreateFileA)): 2" "" "" 0 get_node_type_feature
       (Some 0) []]
  /\ top_level (update_features (@nil (string * string))
                  Samples.empty_editor) = [0].
Proof.
  split.
  - exact (proj1 (update_features_creates_root Samples.selection
                    Samples.empty_editor eq_refl)).
  - exact (proj1 (proj2 (update_features_creates_root []
                           Samples.empty_editor eq_refl))).
Defined.

End UpdateFeaturesWitnesses.
